(** * resemble-enhance: the audio distorter effects

    A shallow embedding of [resemble_enhance/data/distorter/custom.py]
    ([RandomRIR], [RandomGaussianNoise], [RandomWhamNoise]) and of
    [resemble_enhance/data/distorter/distorter.py] ([Distorter]).

    - A waveform is a one-dimensional NumPy array: a [list] of samples.
    - Sample arithmetic is an interface ([Sample]) with three instances:
      binary64 floating point (NumPy's [float64], executable), exact real
      arithmetic (the arithmetic the energy-matching formulas are designed
      in), and exact arithmetic that records the divisions it carries out.
      Structural results hold for every instance.  An array carries no
      dtype: what [RandomWhamNoise] computes on its [float32] noise is
      stated in exact arithmetic, not bit for bit.
    - The process-wide random state ([random], [np.random]) and the logger
      are threaded explicitly; a Python exception is a [Raise] result.
    - Calls that leave the repository ([librosa.resample], [librosa.load],
      [np.load], [scipy.signal.convolve], [walk_paths]) are fields of a
      [World]; each of them can raise.

    Further down: [resemble_enhance/denoiser/convtasnet.py] at the level of
    tensor shapes, and the [Engine] of [resemble_enhance/utils/ddp_engine.py]
    over a [Torch] record of the PyTorch calls it makes. *)

From Stdlib Require Import Floats.
From Stdlib Require Import String List ZArith Lia Bool Arith.
From Stdlib Require Import Reals Lra.
Import ListNotations.

Set Implicit Arguments.
(* Decimal literals denote the nearest binary64 value, as in Python. *)
Set Warnings "-inexact-float,-register-all,-abstract-large-number".

(** ** Sample arithmetic *)

Class Sample (T : Type) : Type := {
  s_zero : T;
  s_one : T;
  s_add : T -> T -> T;
  s_sub : T -> T -> T;
  s_mul : T -> T -> T;
  s_div : T -> T -> T;
  s_sqrt : T -> T;
  s_abs : T -> T;
  (* [np.max] of two values *)
  s_max : T -> T -> T;
  (* [x > y] *)
  s_gtb : T -> T -> bool;
  (* the literals of the source *)
  c_0_99 : T;
  c_0_98 : T;
  c_1e_7 : T;
  c_0_8 : T;
  c_0_2 : T
}.

(** binary64: NumPy's [float64] and Python's [float]. [np.max] propagates
    a NaN operand. *)
Definition float_isnan (x : float) : bool := negb (PrimFloat.eqb x x).

Definition float_max (x y : float) : float :=
  if float_isnan x then x
  else if float_isnan y then y
  else if PrimFloat.ltb x y then y else x.

#[export] Instance float_ops : Sample float := {|
  s_zero := 0%float;
  s_one := 1%float;
  s_add := PrimFloat.add;
  s_sub := PrimFloat.sub;
  s_mul := PrimFloat.mul;
  s_div := PrimFloat.div;
  s_sqrt := PrimFloat.sqrt;
  s_abs := PrimFloat.abs;
  s_max := float_max;
  s_gtb := fun x y => PrimFloat.ltb y x;
  c_0_99 := 0.99%float;
  c_0_98 := 0.98%float;
  c_1e_7 := 1e-7%float;
  c_0_8 := 0.8%float;
  c_0_2 := 0.2%float
|}.

(** Exact arithmetic. *)
Definition Rgtb (x y : R) : bool := if Rlt_dec y x then true else false.

#[export] Instance real_ops : Sample R := {|
  s_zero := 0%R;
  s_one := 1%R;
  s_add := Rplus;
  s_sub := Rminus;
  s_mul := Rmult;
  s_div := Rdiv;
  s_sqrt := sqrt;
  s_abs := Rabs;
  s_max := Rmax;
  s_gtb := Rgtb;
  c_0_99 := 0.99%R;
  c_0_98 := 0.98%R;
  c_1e_7 := 1e-7%R;
  c_0_8 := 0.8%R;
  c_0_2 := 0.2%R
|}.

(** ** NumPy array operations on one-dimensional arrays *)

Inductive exn : Type :=
| ValueError
| IndexError
| TypeError
| OSError.

Inductive result (A : Type) : Type :=
| Ok (a : A)
| Raise (e : exn).

Arguments Ok {A} a.
Arguments Raise {A} e.

Section Arrays.
Context {T : Type} `{Sample T}.

(** [a * c] for an array [a] and a scalar [c]. *)
Definition np_scale (a : list T) (c : T) : list T :=
  map (fun x => s_mul x c) a.

(** [a ** 2] *)
Definition np_square (a : list T) : list T :=
  map (fun x => s_mul x x) a.

(** [np.sum(a)], accumulated from the left (NumPy adds long arrays
    pairwise: the order matters to the rounding only). *)
Definition np_sum (a : list T) : T := fold_left s_add a s_zero.

(** [np.abs(a)] *)
Definition np_abs (a : list T) : list T := map s_abs a.

(** [np.max(a)]: a reduction without identity, so an empty array raises
    [ValueError]. *)
Definition np_max (a : list T) : result T :=
  match a with
  | [] => Raise ValueError
  | x :: rest => Ok (fold_left s_max rest x)
  end.

(** [np.zeros(n)] *)
Definition np_zeros (n : nat) : list T := repeat s_zero n.

(** [np.pad(a, (0, k))]: [k] zeros appended on the right. *)
Definition np_pad_right (a : list T) (k : nat) : list T := a ++ np_zeros k.

(** [a[start:stop]] for non-negative bounds; Python clips the slice to
    the array. *)
Definition np_slice (a : list T) (start stop : nat) : list T :=
  firstn (stop - start) (skipn start a).

(** [a[start:stop] = b]: the slice is clipped to [a]; [b] must have the
    length of the slice, or length one (it is then broadcast); anything
    else raises [ValueError]. *)
Definition np_set_slice (a : list T) (start stop : nat) (b : list T)
  : result (list T) :=
  let n := length a in
  let lo := Nat.min start n in
  let hi := Nat.max lo (Nat.min stop n) in
  if length b =? hi - lo then Ok (firstn lo a ++ b ++ skipn hi a)
  else match b with
       | [x] => Ok (firstn lo a ++ repeat x (hi - lo) ++ skipn hi a)
       | _ => Raise ValueError
       end.

(** [a + b] for two arrays: elementwise on equal shapes, an array of
    length one is broadcast, other shapes raise [ValueError]. *)
Definition np_add (a b : list T) : result (list T) :=
  if length a =? length b then Ok (map (fun p => s_add (fst p) (snd p)) (combine a b))
  else match a, b with
       | [x], _ => Ok (map (fun y => s_add x y) b)
       | _, [y] => Ok (map (fun x => s_add x y) a)
       | _, _ => Raise ValueError
       end.
End Arrays.

(** ** Random state, logger and exceptions *)

(** The generators behind Python's [random] module and [np.random]: each
    primitive returns a drawn value and the next generator state. *)
Class RandomSource (T G : Type) : Type := {
  (* the raw integer behind [random._randbelow] *)
  next_index : G -> nat * G;
  (* [random.random()] *)
  next_unit : G -> T * G;
  (* one standard normal sample of [np.random.randn] *)
  next_normal : G -> T * G
}.

(** [_logger.warning(f"length mismatch: {length} vs {len(wav)}")] *)
Inductive warning : Type :=
| LengthMismatch (expected actual : nat).

Record State (G : Type) : Type := mkState {
  rng : G;
  log : list warning
}.

Definition M (G A : Type) : Type := State G -> result (A * State G).

Definition ret {G A} (a : A) : M G A := fun st => Ok (a, st).

Definition bind {G A B} (c : M G A) (k : A -> M G B) : M G B :=
  fun st =>
    match c st with
    | Ok (a, st') => k a st'
    | Raise e => Raise e
    end.

Definition raise {G A} (e : exn) : M G A := fun _ => Raise e.

Definition lift {G A} (r : result A) : M G A :=
  fun st =>
    match r with
    | Ok a => Ok (a, st)
    | Raise e => Raise e
    end.

Declare Scope py_scope.
Delimit Scope py_scope with py.
Notation "x <- c ;; k" := (bind c (fun x => k))
  (at level 61, c at next level, right associativity) : py_scope.
Notation "c ;; k" := (bind c (fun _ => k))
  (at level 61, right associativity) : py_scope.
Local Open Scope py_scope.

Section Random.
Context {T : Type} `{Sample T} {G : Type} `{RandomSource T G}.

Definition with_rng (st : State G) (g : G) : State G :=
  mkState g (log st).

(** [random._randbelow(n)] for [n > 0]: an integer in [0, n). *)
Definition randbelow (n : nat) : M G nat :=
  fun st =>
    let (k, g) := next_index (rng st) in
    Ok (k mod n, with_rng st g).

(** [random.choice(seq)]: [seq[_randbelow(len(seq))]], [IndexError] on
    an empty sequence. *)
Definition random_choice {A} (seq : list A) : M G A :=
  match seq with
  | [] => raise IndexError
  | _ =>
      i <- randbelow (length seq) ;;
      match nth_error seq i with
      | Some a => ret a
      | None => raise IndexError
      end
  end.

(** [random.uniform(a, b)]: [a + (b - a) * random()]. *)
Definition random_uniform (a b : T) : M G T :=
  fun st =>
    let (u, g) := next_unit (rng st) in
    Ok (s_add a (s_mul (s_sub b a) u), with_rng st g).

(** [random.randint(a, b)]: [a + _randbelow(b - a + 1)], [ValueError]
    on an empty range. *)
Definition random_randint (a b : nat) : M G nat :=
  if b <? a then raise ValueError
  else
    k <- randbelow (b - a + 1) ;;
    ret (a + k).

Fixpoint randn_draw (n : nat) (g : G) : list T * G :=
  match n with
  | O => ([], g)
  | S n' =>
      let (x, g1) := next_normal g in
      let (xs, g2) := randn_draw n' g1 in
      (x :: xs, g2)
  end.

(** [np.random.randn(n)] *)
Definition np_random_randn (n : nat) : M G (list T) :=
  fun st =>
    let (noise, g) := randn_draw n (rng st) in
    Ok (noise, with_rng st g).

Definition logger_warning (w : warning) : M G unit :=
  fun st => Ok (tt, mkState (rng st) (log st ++ [w])).
End Random.

(** ** The world outside the repository *)

Definition Path : Type := string.

Record World (T : Type) : Type := {
  (* [list(walk_paths(root, suffix))]; the listing can raise, as on a
     directory that does not exist *)
  walk_paths : Path -> string -> result (list Path);
  (* [np.squeeze(np.load(path))] as a one-dimensional kernel *)
  np_load : Path -> result (list T);
  (* [librosa.load(path, sr=None, mono=True)]: samples and native rate *)
  librosa_load : Path -> result (list T * nat);
  (* [librosa.resample(y, orig_sr=, target_sr=, res_type="kaiser_fast")] *)
  librosa_resample : list T -> nat -> nat -> result (list T);
  (* [signal.convolve(in1, in2, mode="same")] *)
  signal_convolve : list T -> list T -> result (list T)
}.

(** ** custom.py *)

Record RandomRIR : Type := mkRandomRIR {
  rir_dir : option Path;
  rir_rate : nat;
  rir_suffix : string;
  rir_deterministic : bool
}.

Record RandomGaussianNoise (T : Type) : Type := mkRandomGaussianNoise {
  gn_alpha_range : T * T
}.

Record RandomWhamNoise (T : Type) : Type := mkRandomWhamNoise {
  noise_dir : option Path;
  wn_deterministic : bool;
  wn_alpha_range : T * T
}.

(** The operands of the division inside an energy-matching gain. *)
Record Division (T : Type) : Type := mkDivision {
  dividend : T;
  divisor : T
}.

Section Custom.
Context {T : Type} `{Sample T} {G : Type} `{RandomSource T G}.
Variable w : World T.

Definition quotient (d : Division T) : T := s_div (dividend d) (divisor d).

(** *** RandomRIR *)

(** The cached property [rir_paths]: the world does not change under an
    effect, so the cache is not observable: every evaluation lists the same
    catalog, or raises what the listing raises. *)
Definition rir_paths (e : RandomRIR) : result (list Path) :=
  match rir_dir e with
  | None => Ok []
  | Some d => walk_paths w d (rir_suffix e)
  end.

Definition _sample_rir (e : RandomRIR) : M G (option (list T)) :=
  paths <- lift (rir_paths e) ;;
  if length paths =? 0 then ret None
  else
    rir_path <- (if rir_deterministic e
                 then match nth_error paths 0 with
                      | Some p => ret p
                      | None => raise IndexError
                      end
                 else random_choice paths) ;;
    rir <- lift (np_load w rir_path) ;;
    ret (Some rir).

(** Lines 57-59: [actlev = np.max(np.abs(wav))] and the rescaling
    [(wav / actlev) * 0.98] when [actlev > 0.99]. *)
Definition rir_normalize (wav : list T) : result (list T) :=
  match np_max (np_abs wav) with
  | Raise e => Raise e
  | Ok actlev =>
      if s_gtb actlev c_0_99
      then Ok (np_scale (map (fun x => s_div x actlev) wav) c_0_98)
      else Ok wav
  end.

(** Lines 63-69: the warning, then [np.pad(wav, (0, length - len(wav)))]
    or [wav[:length]]. *)
Definition rir_reconcile (length_ : nat) (wav : list T) : M G (list T) :=
  (if (10 <? Z.abs (Z.of_nat length_ - Z.of_nat (length wav)))%Z
   then logger_warning (LengthMismatch length_ (length wav))
   else ret tt) ;;
  ret (if length wav <? length_
       then np_pad_right wav (length_ - length wav)
       else if length_ <? length wav
            then np_slice wav 0 length_
            else wav).

(** Lines 52-55: resampling to [rir_rate] and the convolution. *)
Definition rir_convolve (e : RandomRIR) (wav : list T) (sr : nat)
  : M G (list T) :=
  wav <- lift (librosa_resample w wav sr (rir_rate e)) ;;
  rir <- _sample_rir e ;;
  match rir with
  | Some rir => lift (signal_convolve w wav rir)
  | None => raise TypeError
  end.

(** Lines 52-61: convolution, normalisation, resampling back to [sr]. *)
Definition rir_reverberate (e : RandomRIR) (wav : list T) (sr : nat)
  : M G (list T) :=
  wav <- rir_convolve e wav sr ;;
  wav <- lift (rir_normalize wav) ;;
  lift (librosa_resample w wav (rir_rate e) sr).

Definition RandomRIR_apply (e : RandomRIR) (wav : list T) (sr : nat)
  : M G (list T) :=
  paths <- lift (rir_paths e) ;;
  if length paths =? 0 then ret wav
  else
    let length_ := length wav in
    wav <- rir_reverberate e wav sr ;;
    rir_reconcile length_ wav.

(** *** RandomGaussianNoise *)

(** Lines 81-83: [wav_energy / noise_energy]. *)
Definition gaussian_division (wav noise : list T) : Division T :=
  let noise_energy := np_sum (np_square noise) in
  let wav_energy := np_sum (np_square wav) in
  mkDivision wav_energy noise_energy.

Definition RandomGaussianNoise_apply (e : RandomGaussianNoise T)
    (wav : list T) (sr : nat) : M G (list T) :=
  noise <- np_random_randn (length wav) ;;
  let noise := np_scale noise (s_sqrt (quotient (gaussian_division wav noise))) in
  alpha <- random_uniform (fst (gn_alpha_range e)) (snd (gn_alpha_range e)) ;;
  lift (np_add (np_scale wav alpha) (np_scale noise (s_sub s_one alpha))).

(** *** RandomWhamNoise *)

Definition noise_paths (e : RandomWhamNoise T) : result (list Path) :=
  match noise_dir e with
  | None => Ok []
  | Some d => walk_paths w d ".wav"
  end.

(** Returns [(None, None)] or [(wav, sr)].  Arrays carry no dtype: the
    cast [astype(np.float32)] of line 106 and the [dtype] of the buffer of
    line 118, which change no length and round no sample of exact
    arithmetic, are left out. *)
Definition _sample_noise (e : RandomWhamNoise T)
  : M G (option (list T * nat)) :=
  paths <- lift (noise_paths e) ;;
  if length paths =? 0 then ret None
  else
    path <- (if wn_deterministic e
             then match nth_error paths 0 with
                  | Some p => ret p
                  | None => raise IndexError
                  end
             else random_choice paths) ;;
    loaded <- lift (librosa_load w path) ;;
    ret (Some loaded).

(** Lines 116-123: the noise is embedded in a zero buffer, or cropped,
    to the length of [wav]. *)
Definition wham_align (e : RandomWhamNoise T) (wav noise : list T)
  : M G (list T) :=
  if length noise <? length wav then
    start <- (if wn_deterministic e then ret 0
              else random_randint 0 (length wav - length noise)) ;;
    let padded := np_zeros (length wav) in
    lift (np_set_slice padded start (start + length noise) noise)
  else if length wav <? length noise then
    start <- (if wn_deterministic e then ret 0
              else random_randint 0 (length noise - length wav)) ;;
    ret (np_slice noise start (start + length wav))
  else ret noise.

(** Lines 124-126: [wav_energy / noise_energy], both with [1e-7] added. *)
Definition wham_division (wav noise : list T) : Division T :=
  let noise_energy := s_add (np_sum (np_square noise)) c_1e_7 in
  let wav_energy := s_add (np_sum (np_square wav)) c_1e_7 in
  mkDivision wav_energy noise_energy.

(** Lines 124-128. *)
Definition wham_mix (e : RandomWhamNoise T) (wav noise : list T)
  : M G (list T) :=
  let noise := np_scale noise (s_sqrt (quotient (wham_division wav noise))) in
  alpha <- random_uniform (fst (wn_alpha_range e)) (snd (wn_alpha_range e)) ;;
  lift (np_add (np_scale wav alpha) (np_scale noise (s_sub s_one alpha))).

Definition RandomWhamNoise_apply (e : RandomWhamNoise T)
    (wav : list T) (sr : nat) : M G (list T) :=
  paths <- lift (noise_paths e) ;;
  if length paths =? 0 then ret wav
  else
    sampled <- _sample_noise e ;;
    match sampled with
    | None => ret wav
    | Some (noise, nsr) =>
        noise <- (if negb (nsr =? sr)
                  then lift (librosa_resample w noise nsr sr)
                  else ret noise) ;;
        noise <- wham_align e wav noise ;;
        wham_mix e wav noise
    end.
End Custom.

(** Dynamic dispatch of [effect.apply(wav, sr)] over the effects of
    custom.py. *)
Inductive CustomEffect (T : Type) : Type :=
| CustomRIR (e : RandomRIR)
| CustomGaussianNoise (e : RandomGaussianNoise T)
| CustomWhamNoise (e : RandomWhamNoise T).

Arguments CustomRIR {T} e.

Definition apply {T : Type} `{Sample T} {G : Type} `{RandomSource T G}
    (w : World T) (e : CustomEffect T) (wav : list T) (sr : nat)
  : M G (list T) :=
  match e with
  | CustomRIR e => RandomRIR_apply w e wav sr
  | CustomGaussianNoise e => RandomGaussianNoise_apply e wav sr
  | CustomWhamNoise e => RandomWhamNoise_apply w e wav sr
  end.

(** ** distorter.py *)

Module hparams.
(** The options of [HParams] that [Distorter] reads. *)
Record HParams : Type := {
  enable_rir : bool;
  rir_dir : option Path;
  enable_reverb : bool;
  enable_gaussian_noise : bool;
  enable_wham_noise : bool;
  wham_noise_dir : option Path;
  enable_overdrive : bool;
  enable_equalizer : bool;
  enable_filters : bool
}.
End hparams.

(** The effect tree: the leaves of custom.py, the leaves of sox.py (kept
    as constructors with the arguments [Distorter] passes) and the
    combinators of base.py. *)
Inductive Effect (T : Type) : Type :=
| ERandomRIR (e : RandomRIR)
| ERandomGaussianNoise (e : RandomGaussianNoise T)
| ERandomWhamNoise (e : RandomWhamNoise T)
| RandomReverb (deterministic : bool)
| RandomOverdrive
| RandomEqualizer
| RandomLowpassDistorter
| RandomBandpassDistorter
| Chain (effects : list (Effect T))
| Choice (effects : list (Effect T)) (p : option (list T))
| Permutation (effects : list (Effect T)).

Arguments ERandomRIR {T} e.
Arguments RandomReverb {T} deterministic.
Arguments RandomOverdrive {T}.
Arguments RandomEqualizer {T}.
Arguments RandomLowpassDistorter {T}.
Arguments RandomBandpassDistorter {T}.
Arguments Chain {T} effects.
Arguments Choice {T} effects p.
Arguments Permutation {T} effects.

Section Distorter.
Context {T : Type} `{Sample T}.
Import hparams.

(** Constructor defaults. *)
Definition new_RandomRIR (dir : option Path) (deterministic : bool)
  : RandomRIR :=
  mkRandomRIR dir 44000 ".npy" deterministic.

Definition new_RandomGaussianNoise : RandomGaussianNoise T :=
  mkRandomGaussianNoise (c_0_8, s_one).

Definition new_RandomWhamNoise (dir : option Path) (deterministic : bool)
  : RandomWhamNoise T :=
  mkRandomWhamNoise dir deterministic (c_0_8, s_one).

(** [if flag: effects.append(e)] *)
Definition append_if (flag : bool) (e : Effect T) (effects : list (Effect T))
  : list (Effect T) :=
  if flag then effects ++ [e] else effects.

(** [Distorter.__init__]: the arguments given to [Chain.__init__]. *)
Definition Distorter (hp : HParams) (training : bool) (mode : string)
  : Effect T :=
  if training then
    let effects := [] in
    let effects := append_if (enable_rir hp)
                     (ERandomRIR (new_RandomRIR (rir_dir hp) false)) effects in
    let effects := append_if (enable_reverb hp) (RandomReverb false) effects in
    let effects := append_if (enable_gaussian_noise hp)
                     (ERandomGaussianNoise new_RandomGaussianNoise) effects in
    let effects := append_if (enable_wham_noise hp)
                     (ERandomWhamNoise
                        (new_RandomWhamNoise (wham_noise_dir hp) false))
                     effects in
    let effects := append_if (enable_overdrive hp) RandomOverdrive effects in
    let effects := append_if (enable_equalizer hp) RandomEqualizer effects in
    let effects := append_if (enable_filters hp)
                     (Choice [RandomLowpassDistorter; RandomBandpassDistorter]
                             None)
                     effects in
    let permutation := Permutation effects in
    if String.eqb mode "denoiser" then Chain [permutation]
    else Chain [Choice [permutation; Chain []] (Some [c_0_8; c_0_2])]
  else
    let effects := [] in
    let effects := append_if (enable_rir hp)
                     (ERandomRIR (new_RandomRIR (rir_dir hp) true)) effects in
    let effects := append_if (enable_reverb hp) (RandomReverb true) effects in
    Chain effects.

(** The effects a training pipeline permutes, as the specification lists
    them: one entry per enabled flag, in the order of the flags, the filters
    flag contributing a [Choice] between the low-pass and the band-pass
    distorter. *)
Definition spec_enabled_effects (hp : HParams) : list (Effect T) :=
  (if enable_rir hp
   then [ERandomRIR (mkRandomRIR (rir_dir hp) 44000 ".npy" false)] else [])
  ++ (if enable_reverb hp then [RandomReverb false] else [])
  ++ (if enable_gaussian_noise hp
      then [ERandomGaussianNoise (mkRandomGaussianNoise (c_0_8, s_one))]
      else [])
  ++ (if enable_wham_noise hp
      then [ERandomWhamNoise
              (mkRandomWhamNoise (wham_noise_dir hp) false (c_0_8, s_one))]
      else [])
  ++ (if enable_overdrive hp then [RandomOverdrive] else [])
  ++ (if enable_equalizer hp then [RandomEqualizer] else [])
  ++ (if enable_filters hp
      then [Choice [RandomLowpassDistorter; RandomBandpassDistorter] None]
      else []).
End Distorter.

(** ** denoiser/convtasnet.py, at the level of tensor shapes

    The weights of the network are learned; what the source fixes is how
    the layers are sized and wired.  A tensor is modelled by its shape, a
    layer by the shape it returns, [None] when PyTorch rejects the input.
    [nn.Conv1d] and [nn.ConvTranspose1d] follow the output-length rules of
    their documentation; [+] and [*] broadcast. *)

(** [(batch, channels, length)] *)
Record Shape : Type := mkShape {
  batch : nat;
  channels : nat;
  frames : nat
}.

(** [nn.Conv1d(in_channels, out_channels, kernel_size, stride=1,
    padding=0, dilation=1)]; the bias has no part in the shape. *)
Record Conv1d : Type := mkConv1d {
  in_channels : nat;
  out_channels : nat;
  kernel_size : nat;
  stride : nat;
  padding : nat;
  dilation : nat
}.

(** [L_out = (L_in + 2 * padding - dilation * (kernel_size - 1) - 1)
    // stride + 1]; the kernel size and the stride must be positive, the
    channels must be [in_channels], and the kernel must fit the padded
    input. *)
Definition Conv1d_forward (c : Conv1d) (x : Shape) : option Shape :=
  let span := dilation c * (kernel_size c - 1) + 1 in
  if (kernel_size c =? 0) || (stride c =? 0) then None
  else if negb (channels x =? in_channels c) then None
  else if frames x + 2 * padding c <? span then None
  else Some (mkShape (batch x) (out_channels c)
               ((frames x + 2 * padding c - span) / stride c + 1)).

(** [nn.ConvTranspose1d] with [dilation=1] and [output_padding=0]:
    [L_out = (L_in - 1) * stride - 2 * padding + (kernel_size - 1) + 1],
    which must be positive, for an input that has samples. *)
Definition ConvTranspose1d_forward (c : Conv1d) (x : Shape) : option Shape :=
  let grown := (frames x - 1) * stride c + dilation c * (kernel_size c - 1) + 1 in
  if (kernel_size c =? 0) || (stride c =? 0) then None
  else if negb (channels x =? in_channels c) then None
  else if frames x =? 0 then None
  else if grown <=? 2 * padding c then None
  else Some (mkShape (batch x) (out_channels c) (grown - 2 * padding c)).

(** Broadcasting of one dimension, and of two shapes. *)
Definition broadcast_dim (m n : nat) : option nat :=
  if m =? n then Some m
  else if m =? 1 then Some n
  else if n =? 1 then Some m
  else None.

Definition broadcast (x y : Shape) : option Shape :=
  match broadcast_dim (batch x) (batch y),
        broadcast_dim (channels x) (channels y),
        broadcast_dim (frames x) (frames y) with
  | Some b, Some c, Some l => Some (mkShape b c l)
  | _, _, _ => None
  end.

(** A layer of an [nn.Sequential]: [nn.ReLU] keeps the shape. *)
Inductive Layer : Type :=
| LConv1d (c : Conv1d)
| LReLU.

Definition Layer_forward (layer : Layer) (x : Shape) : option Shape :=
  match layer with
  | LConv1d c => Conv1d_forward c x
  | LReLU => Some x
  end.

Fixpoint Sequential_forward (layers : list Layer) (x : Shape) : option Shape :=
  match layers with
  | [] => Some x
  | layer :: rest =>
      match Layer_forward layer x with
      | Some y => Sequential_forward rest y
      | None => None
      end
  end.

(** [ConvBlock.__init__] *)
Definition new_ConvBlock (channels_ hidden_channels kernel_size_ dilation_ : nat)
  : list Layer :=
  let padding_ := (kernel_size_ - 1) * dilation_ / 2 in
  [LConv1d (mkConv1d channels_ hidden_channels 1 1 0 1);
   LReLU;
   LConv1d (mkConv1d hidden_channels hidden_channels kernel_size_ 1
              padding_ dilation_);
   LReLU;
   LConv1d (mkConv1d hidden_channels channels_ 1 1 0 1)].

(** [ConvBlock.forward]: [x + self.net(x)] *)
Definition ConvBlock_forward (net : list Layer) (x : Shape) : option Shape :=
  match Sequential_forward net x with
  | Some y => broadcast x y
  | None => None
  end.

(** [TCN.__init__]: the blocks, with the dilations [2 ** i]. *)
Definition new_TCN (channels_ hidden_channels kernel_size_ num_layers : nat)
  : list (list Layer) :=
  map (fun i => new_ConvBlock channels_ hidden_channels kernel_size_ (2 ^ i))
      (seq 0 num_layers).

(** [TCN.forward] *)
Fixpoint TCN_forward (blocks : list (list Layer)) (x : Shape) : option Shape :=
  match blocks with
  | [] => Some x
  | block :: rest =>
      match ConvBlock_forward block x with
      | Some y => TCN_forward rest y
      | None => None
      end
  end.

Record ConvTasNet : Type := mkConvTasNet {
  encoder : Conv1d;
  tcn : list (list Layer);
  mask : Conv1d;
  decoder : Conv1d
}.

(** [ConvTasNet.__init__] *)
Definition new_ConvTasNet (enc_dim hidden_channels kernel_size_ num_layers : nat)
  : ConvTasNet :=
  let stride_ := kernel_size_ * 2 / 2 in
  {| encoder := mkConv1d 1 enc_dim (kernel_size_ * 2) stride_ kernel_size_ 1;
     tcn := new_TCN enc_dim hidden_channels kernel_size_ num_layers;
     mask := mkConv1d enc_dim enc_dim 1 1 0 1;
     decoder := mkConv1d enc_dim 1 (kernel_size_ * 2) stride_ kernel_size_ 1 |}.

(** The shape of a tensor of two or of three dimensions. *)
Inductive TensorShape : Type :=
| Dim2 (b t : nat)
| Dim3 (x : Shape).

(** [out.squeeze(1)]: the dimension 1 is removed when its size is 1. *)
Definition squeeze_1 (x : Shape) : TensorShape :=
  if channels x =? 1 then Dim2 (batch x) (frames x) else Dim3 x.

(** [ConvTasNet.forward] on an input of shape [(b, t)]; [torch.sigmoid]
    keeps the shape. *)
Definition ConvTasNet_forward (m : ConvTasNet) (b t : nat)
  : option TensorShape :=
  let x := mkShape b 1 t in
  match Conv1d_forward (encoder m) x with
  | None => None
  | Some enc =>
      match TCN_forward (tcn m) enc with
      | None => None
      | Some hidden =>
          match Conv1d_forward (mask m) hidden with
          | None => None
          | Some mask_ =>
              match broadcast enc mask_ with
              | None => None
              | Some masked =>
                  match ConvTranspose1d_forward (decoder m) masked with
                  | None => None
                  | Some out => Some (squeeze_1 out)
                  end
              end
          end
      end
  end.

(** ** utils/ddp_engine.py

    An [Engine] after [__init__]: the parameters that the module, the DDP
    wrapper and the optimizer share, the optimizer, the scheduler and the
    three private fields.  What PyTorch does (optimizer and scheduler
    steps, gradient clipping, state dicts) is a field of [Torch]; a call
    that raises also tells the state it leaves behind.  A checkpoint file
    holds a dict; its entries, when present, have the types that
    [save_checkpoint] writes.  Input and output errors of the file system
    are not modelled. *)

Inductive pyerror : Type :=
| KeyError (key : string)
| TorchError (kind : string).

(** The outcome of a method on a mutable object: the object as the method
    leaves it, also when it raises. *)
Inductive outcome (A : Type) : Type :=
| Done (a : A)
| Failed (x : pyerror) (a : A).

Arguments Done {A} a.
Arguments Failed {A} x a.

(** A parameter ([torch.nn.Parameter]): its values, [p.grad] and [p.requires_grad]. *)
Record Param (T : Type) : Type := mkParam {
  data : list T;
  grad : option (list T);
  requires_grad : bool
}.

Record Torch (T Opt Sched MD OD SD : Type) : Type := {
  (* [torch.nn.utils.clip_grad_norm_(parameters, max_norm)] *)
  clip_grad_norm_ : list (Param T) -> T -> outcome (list (Param T));
  (* [optimizer.step()] *)
  optimizer_step : Opt -> list (Param T) -> outcome (Opt * list (Param T));
  (* [optimizer.zero_grad()] *)
  optimizer_zero_grad : Opt -> list (Param T) -> list (Param T);
  (* [scheduler.step()], which also sets the optimizer's learning rates *)
  scheduler_step : Sched -> Opt -> outcome (Sched * Opt);
  (* [state_dict()] and [load_state_dict()] of the three objects *)
  ddp_state_dict : list (Param T) -> MD;
  ddp_load_state_dict : list (Param T) -> MD -> outcome (list (Param T));
  optimizer_state_dict : Opt -> OD;
  optimizer_load_state_dict : Opt -> OD -> outcome Opt;
  scheduler_state_dict : Sched -> SD;
  scheduler_load_state_dict : Sched -> SD -> outcome Sched;
  (* [directory / name] of pathlib *)
  path_join : Path -> string -> Path
}.

Record Engine (T Opt Sched : Type) : Type := mkEngine {
  parameters : list (Param T);
  optimizer : Opt;
  scheduler : Sched;
  _ckpt_dir : Path;
  _global_step : Z;
  _gradient_clipping : T
}.

(** The dict of a checkpoint file, by key. *)
Record Checkpoint (MD OD SD : Type) : Type := mkCheckpoint {
  ck_model : option MD;
  ck_optimizer : option OD;
  ck_scheduler : option SD;
  ck_step : option Z
}.

(** The files: the dict stored at a path, if the path exists. *)
Definition Files (MD OD SD : Type) : Type :=
  Path -> option (Checkpoint MD OD SD).

Definition write_file {MD OD SD : Type} (fs : Files MD OD SD) (path : Path)
    (ck : Checkpoint MD OD SD) : Files MD OD SD :=
  fun q => if String.eqb q path then Some ck else fs q.

Section EngineMethods.
Context {T : Type} `{Sample T} {Opt Sched MD OD SD : Type}.
Variable torch : Torch T Opt Sched MD OD SD.

(** [Engine.step] *)
Definition Engine_step (self : Engine T Opt Sched) : outcome (Engine T Opt Sched) :=
  match clip_grad_norm_ torch (parameters self) (_gradient_clipping self) with
  | Failed x ps =>
      Failed x (mkEngine ps (optimizer self) (scheduler self) (_ckpt_dir self)
                  (_global_step self) (_gradient_clipping self))
  | Done ps =>
      match optimizer_step torch (optimizer self) ps with
      | Failed x (o, ps1) =>
          Failed x (mkEngine ps1 o (scheduler self) (_ckpt_dir self)
                      (_global_step self) (_gradient_clipping self))
      | Done (o, ps1) =>
          let ps2 := optimizer_zero_grad torch o ps1 in
          match scheduler_step torch (scheduler self) o with
          | Failed x (s, o1) =>
              Failed x (mkEngine ps2 o1 s (_ckpt_dir self)
                          (_global_step self) (_gradient_clipping self))
          | Done (s, o1) =>
              Done (mkEngine ps2 o1 s (_ckpt_dir self)
                      (_global_step self + 1) (_gradient_clipping self))
          end
      end
  end.

(** [Engine.step] called [n] times, stopping at the first exception. *)
Fixpoint Engine_steps (n : nat) (self : Engine T Opt Sched)
  : outcome (Engine T Opt Sched) :=
  match n with
  | 0%nat => Done self
  | S n' =>
      match Engine_step self with
      | Done self' => Engine_steps n' self'
      | Failed x self' => Failed x self'
      end
  end.

(** [Engine.get_grad_norm]: [total += p.grad.data.norm(2).item() ** 2]
    over the parameters that have a gradient, then [total ** 0.5]. *)
Definition tensor_norm (g : list T) : T := s_sqrt (np_sum (np_square g)).

Definition Engine_get_grad_norm (self : Engine T Opt Sched) : T :=
  let total :=
    fold_left
      (fun total p =>
         match grad p with
         | Some g => s_add total (s_mul (tensor_norm g) (tensor_norm g))
         | None => total
         end)
      (parameters self) s_zero in
  s_sqrt total.

(** [Engine.freeze_] and [Engine.unfreeze_] *)
Definition Engine_freeze_ (self : Engine T Opt Sched) : Engine T Opt Sched :=
  mkEngine
    (map (fun p => if requires_grad p
                   then mkParam (data p) (grad p) false else p)
         (parameters self))
    (optimizer self) (scheduler self) (_ckpt_dir self) (_global_step self)
    (_gradient_clipping self).

Definition Engine_unfreeze_ (self : Engine T Opt Sched) : Engine T Opt Sched :=
  mkEngine
    (map (fun p => if negb (requires_grad p)
                   then mkParam (data p) (grad p) true else p)
         (parameters self))
    (optimizer self) (scheduler self) (_ckpt_dir self) (_global_step self)
    (_gradient_clipping self).

(** [self._ckpt_dir / f"{tag}.pt"] *)
Definition checkpoint_path (self : Engine T Opt Sched) (tag : string) : Path :=
  path_join torch (_ckpt_dir self) (tag ++ ".pt")%string.

(** [Engine.save_checkpoint]: the files it leaves and the path it logs. *)
Definition Engine_save_checkpoint (self : Engine T Opt Sched) (tag : string)
    (fs : Files MD OD SD) : Files MD OD SD * Path :=
  let path := checkpoint_path self tag in
  (write_file fs path
     (mkCheckpoint
        (Some (ddp_state_dict torch (parameters self)))
        (Some (optimizer_state_dict torch (optimizer self)))
        (Some (scheduler_state_dict torch (scheduler self)))
        (Some (_global_step self))),
   path).

(** [Engine.load_checkpoint] *)
Definition Engine_load_checkpoint (self : Engine T Opt Sched) (tag : string)
    (load_optimizer_states load_lr_scheduler_states : bool)
    (fs : Files MD OD SD) : outcome (Engine T Opt Sched) :=
  let path := checkpoint_path self tag in
  match fs path with
  | None => Done self
  | Some state =>
      match ck_model state with
      | None => Failed (KeyError "model") self
      | Some md =>
          match ddp_load_state_dict torch (parameters self) md with
          | Failed x ps =>
              Failed x (mkEngine ps (optimizer self) (scheduler self)
                          (_ckpt_dir self) (_global_step self)
                          (_gradient_clipping self))
          | Done ps =>
              let step := match ck_step state with
                          | Some n => n
                          | None => 0%Z
                          end in
              let after_optimizer :=
                if load_optimizer_states
                then match ck_optimizer state with
                     | None => Failed (KeyError "optimizer") (optimizer self)
                     | Some od =>
                         optimizer_load_state_dict torch (optimizer self) od
                     end
                else Done (optimizer self) in
              match after_optimizer with
              | Failed x o =>
                  Failed x (mkEngine ps o (scheduler self) (_ckpt_dir self)
                              step (_gradient_clipping self))
              | Done o =>
                  let after_scheduler :=
                    if load_lr_scheduler_states
                    then match ck_scheduler state with
                         | None =>
                             Failed (KeyError "scheduler") (scheduler self)
                         | Some sd =>
                             scheduler_load_state_dict torch
                               (scheduler self) sd
                         end
                    else Done (scheduler self) in
                  match after_scheduler with
                  | Failed x s =>
                      Failed x (mkEngine ps o s (_ckpt_dir self) step
                                  (_gradient_clipping self))
                  | Done s =>
                      Done (mkEngine ps o s (_ckpt_dir self) step
                              (_gradient_clipping self))
                  end
              end
          end
      end
  end.
End EngineMethods.

(** ** Concrete generators and worlds, for evaluating the model *)

(** A generator that replays recorded draws. *)
Record Tape (T : Type) : Type := mkTape {
  tape_index : list nat;
  tape_unit : list T;
  tape_normal : list T
}.

#[export] Instance tape_source {T : Type} `{Sample T}
  : RandomSource T (Tape T) := {|
  next_index := fun g =>
    (hd 0 (tape_index g),
     mkTape (tl (tape_index g)) (tape_unit g) (tape_normal g));
  next_unit := fun g =>
    (hd s_zero (tape_unit g),
     mkTape (tape_index g) (tl (tape_unit g)) (tape_normal g));
  next_normal := fun g =>
    (hd s_zero (tape_normal g),
     mkTape (tape_index g) (tape_unit g) (tl (tape_normal g)))
|}.

Definition start_state {T : Type} (idx : list nat) (units normals : list T)
  : State (Tape T) :=
  mkState (mkTape idx units normals) [].

(** A generator whose draws are always the same. *)
Definition steady_source {T : Type} (index : nat) (unit_draw normal : T)
  : RandomSource T unit := {|
  next_index := fun g => (index, g);
  next_unit := fun g => (unit_draw, g);
  next_normal := fun g => (normal, g)
|}.

(** A resampler by nearest neighbour: [ceil(n * target / orig)] samples,
    the input itself when the rates agree. *)
Definition nn_resample {T : Type} `{Sample T} (y : list T) (orig target : nat)
  : list T :=
  map (fun i => nth (i * orig / target) y s_zero)
      (seq 0 ((length y * target + orig - 1) / orig)).

(** Direct linear convolution, cropped to the centre of the full output
    with the length of the first argument. *)
Definition conv_full_at {T : Type} `{Sample T} (in1 in2 : list T) (k : nat)
  : T :=
  fold_left s_add
    (map (fun j => if j <=? k
                   then s_mul (nth j in1 s_zero) (nth (k - j) in2 s_zero)
                   else s_zero)
         (seq 0 (length in1)))
    s_zero.

Definition conv_same {T : Type} `{Sample T} (in1 in2 : list T) : list T :=
  map (fun i => conv_full_at in1 in2 (i + (length in2 - 1) / 2))
      (seq 0 (length in1)).

(** A world with one asset per directory.  A kernel of one sample is what
    [np.squeeze] leaves without a dimension, and [signal.convolve] refuses
    it. *)
Definition demo_world {T : Type} `{Sample T}
    (rir : list T) (noise : list T) (nsr : nat) : World T := {|
  walk_paths := fun root suffix => Ok [(root ++ "/0" ++ suffix)%string];
  np_load := fun _ => Ok rir;
  librosa_load := fun _ => Ok (noise, nsr);
  librosa_resample := fun y orig target =>
    match y with
    | [] => Raise ValueError
    | _ => Ok (nn_resample y orig target)
    end;
  signal_convolve := fun in1 in2 =>
    match in2 with
    | [_] => Raise ValueError
    | _ => Ok (conv_same in1 in2)
    end
|}.

(** A world for runs at the rate of the assets, with the unit impulse
    [[1, 0]] as its response: the resampler returns its input, as librosa
    does when the rates agree, and the convolution returns the signal. *)
Definition unit_world {T : Type} `{Sample T} (noise : list T) (nsr : nat)
  : World T := {|
  walk_paths := fun root suffix => Ok [(root ++ "/0" ++ suffix)%string];
  np_load := fun _ => Ok [s_one; s_zero];
  librosa_load := fun _ => Ok (noise, nsr);
  librosa_resample := fun y _ _ => Ok y;
  signal_convolve := fun in1 _ => Ok in1
|}.

(** A small PyTorch: the optimizer counts its steps, the scheduler counts
    its steps and refuses to go past a total, the state dicts are the
    states themselves, loading a model copies the values in when their
    number fits. *)
Definition toy_torch {T : Type} : Torch T nat (nat * nat) (list (list T)) nat (nat * nat) := {|
  clip_grad_norm_ := fun ps _ => Done ps;
  optimizer_step := fun o ps => Done (S o, ps);
  optimizer_zero_grad := fun _ ps =>
    map (fun p => mkParam (data p) None (requires_grad p)) ps;
  scheduler_step := fun s o =>
    if fst s <? snd s then Done ((S (fst s), snd s), o)
    else Failed (TorchError "ValueError") (s, o);
  ddp_state_dict := fun ps => map (@data T) ps;
  ddp_load_state_dict := fun ps md =>
    if length ps =? length md
    then Done (map (fun pd => mkParam (snd pd) (grad (fst pd))
                                (requires_grad (fst pd)))
                 (combine ps md))
    else Failed (TorchError "RuntimeError") ps;
  optimizer_state_dict := fun o => o;
  optimizer_load_state_dict := fun _ od => Done od;
  scheduler_state_dict := fun s => s;
  scheduler_load_state_dict := fun _ sd => Done sd;
  path_join := fun dir name => (dir ++ "/" ++ name)%string
|}.

(** No file. *)
Definition no_files {MD OD SD : Type} : Files MD OD SD := fun _ => None.

(** A world whose directories hold no asset. *)
Definition empty_world {T : Type} : World T := {|
  walk_paths := fun _ _ => Ok [];
  np_load := fun _ => Raise OSError;
  librosa_load := fun _ => Raise OSError;
  librosa_resample := fun _ _ _ => Raise ValueError;
  signal_convolve := fun _ _ => Raise ValueError
|}.

(** A catalog that cannot be listed, as when its directory does not
    exist. *)
Definition unlisted_world {T : Type} : World T := {|
  walk_paths := fun _ _ => Raise OSError;
  np_load := fun _ => Raise OSError;
  librosa_load := fun _ => Raise OSError;
  librosa_resample := fun _ _ _ => Raise ValueError;
  signal_convolve := fun _ _ => Raise ValueError
|}.

(** ** Exact arithmetic that records its divisions

    A sample of exact arithmetic together with the divisions that were
    carried out to compute it, in the order of evaluation.  An effect run
    in this arithmetic computes the samples of exact arithmetic and tells
    which divisions it performs, and on which operands. *)

Record Traced : Type := mkTraced {
  value : R;
  divisions : list (Division R)
}.

(** A sample that no division went into. *)
Definition untraced (x : R) : Traced := mkTraced x [].

Definition traced1 (f : R -> R) (x : Traced) : Traced :=
  mkTraced (f (value x)) (divisions x).

Definition traced2 (f : R -> R -> R) (x y : Traced) : Traced :=
  mkTraced (f (value x) (value y)) (divisions x ++ divisions y).

Definition traced_div (x y : Traced) : Traced :=
  mkTraced (value x / value y)%R
    (divisions x ++ divisions y ++ [mkDivision (value x) (value y)]).

Definition traced_ops : Sample Traced := {|
  s_zero := untraced 0%R;
  s_one := untraced 1%R;
  s_add := traced2 Rplus;
  s_sub := traced2 Rminus;
  s_mul := traced2 Rmult;
  s_div := traced_div;
  s_sqrt := traced1 sqrt;
  s_abs := traced1 Rabs;
  s_max := traced2 Rmax;
  s_gtb := fun x y => Rgtb (value x) (value y);
  c_0_99 := untraced 0.99%R;
  c_0_98 := untraced 0.98%R;
  c_1e_7 := untraced 1e-7%R;
  c_0_8 := untraced 0.8%R;
  c_0_2 := untraced 0.2%R
|}.

(** The draws of a generator of exact arithmetic: no division went into
    them. *)
Definition traced_source {G : Type} (src : RandomSource R G)
  : RandomSource Traced G := {|
  next_index := @next_index R G src;
  next_unit := fun g =>
    (untraced (fst (@next_unit R G src g)), snd (@next_unit R G src g));
  next_normal := fun g =>
    (untraced (fst (@next_normal R G src g)), snd (@next_normal R G src g))
|}.

(** ** Results *)

(** *** The monad *)

Lemma bind_Ok {G A B} (c : M G A) (k : A -> M G B) st r :
  bind c k st = Ok r ->
  exists a st1, c st = Ok (a, st1) /\ k a st1 = Ok r.
Proof.
  unfold bind. destruct (c st) as [[a st1]|e]; [|discriminate].
  intros Hk. exists a, st1. split; [reflexivity|exact Hk].
Qed.

Lemma lift_Ok {G A} (r : result A) (st : State G) v :
  lift r st = Ok v -> r = Ok (fst v) /\ snd v = st.
Proof.
  unfold lift. destruct r as [a|e]; [|discriminate].
  intros Hv. injection Hv as <-. split; reflexivity.
Qed.

Lemma ret_Ok {G A} (a : A) (st : State G) v :
  ret a st = Ok v -> (a, st) = v.
Proof. unfold ret. intros Hv. injection Hv as <-. reflexivity. Qed.

Ltac inv_bind H :=
  let a := fresh "a" in
  let s := fresh "st" in
  let H1 := fresh "Hrun" in
  apply bind_Ok in H; destruct H as (a & s & H1 & H).

Ltac inv_lift H :=
  let H1 := fresh "Hval" in
  let H2 := fresh "Hst" in
  apply lift_Ok in H; cbn [fst snd] in H; destruct H as [H1 H2].

(** *** Array lengths *)

Section ArrayLengths.
Context {T : Type} `{Sample T}.

Lemma np_scale_length (a : list T) c : length (np_scale a c) = length a.
Proof. apply length_map. Qed.

Lemma np_zeros_length n : length (@np_zeros T _ n) = n.
Proof. apply repeat_length. Qed.

Lemma np_pad_right_length (a : list T) k :
  length (np_pad_right a k) = length a + k.
Proof. unfold np_pad_right. now rewrite length_app, np_zeros_length. Qed.

Lemma np_slice_length (a : list T) start stop :
  length (np_slice a start stop) = Nat.min (stop - start) (length a - start).
Proof. unfold np_slice. now rewrite length_firstn, length_skipn. Qed.

Lemma np_set_slice_length (a b c : list T) start stop :
  np_set_slice a start stop b = Ok c -> length c = length a.
Proof.
  unfold np_set_slice.
  set (lo := Nat.min start (length a)).
  set (hi := Nat.max lo (Nat.min stop (length a))).
  assert (Hlo : lo <= hi) by lia.
  assert (Hhi : hi <= length a) by lia.
  destruct (Nat.eqb_spec (length b) (hi - lo)) as [Hb|Hb].
  - intros Hc. injection Hc as <-.
    rewrite !length_app, length_firstn, length_skipn. lia.
  - destruct b as [|x [|y b]]; try discriminate.
    intros Hc. injection Hc as <-.
    rewrite !length_app, length_firstn, repeat_length, length_skipn. lia.
Qed.

Lemma np_add_same_length (a b : list T) :
  length a = length b ->
  np_add a b = Ok (map (fun p => s_add (fst p) (snd p)) (combine a b)).
Proof. unfold np_add. intros ->. now rewrite Nat.eqb_refl. Qed.

Lemma np_add_length (a b c : list T) :
  length a = length b -> np_add a b = Ok c -> length c = length a.
Proof.
  intros Hab. rewrite (np_add_same_length _ _ Hab).
  intros Hc. injection Hc as <-.
  rewrite length_map, length_combine. lia.
Qed.
End ArrayLengths.

(** *** Random draws *)

Section RandomFacts.
Context {T : Type} `{Sample T} {G : Type} `{RandomSource T G}.

Lemma randn_draw_length n (g : G) : length (fst (randn_draw n g)) = n.
Proof.
  revert g. induction n as [|n IH]; intros g; cbn; [reflexivity|].
  destruct (next_normal g) as [x g1].
  specialize (IH g1). destruct (randn_draw n g1) as [xs g2].
  cbn in *. now rewrite IH.
Qed.

Lemma np_random_randn_Ok n (st : State G) :
  exists noise st',
    np_random_randn n st = Ok (noise, st') /\ length noise = n
    /\ log st' = log st.
Proof.
  unfold np_random_randn.
  pose proof (randn_draw_length n (rng st)) as Hlen.
  destruct (randn_draw n (rng st)) as [noise g].
  exists noise, (with_rng st g). repeat split. exact Hlen.
Qed.

Lemma random_uniform_Ok (a b : T) (st : State G) :
  exists st',
    random_uniform a b st
    = Ok (s_add a (s_mul (s_sub b a) (fst (next_unit (rng st)))), st')
    /\ log st' = log st.
Proof.
  unfold random_uniform. destruct (next_unit (rng st)) as [u g].
  exists (with_rng st g). split; reflexivity.
Qed.

Lemma random_randint_bounds a b (st : State G) k st' :
  random_randint a b st = Ok (k, st') -> a <= k <= b.
Proof.
  unfold random_randint. destruct (Nat.ltb_spec b a) as [Hlt|Hle];
    [discriminate|].
  intros Hrun. inv_bind Hrun. apply ret_Ok in Hrun.
  injection Hrun as <- <-.
  unfold randbelow in Hrun0. destruct (next_index (rng st)) as [i g].
  injection Hrun0 as <- <-.
  pose proof (Nat.mod_upper_bound i (b - a + 1)). lia.
Qed.

Lemma random_randint_Ok a b (st : State G) :
  a <= b -> exists k st', random_randint a b st = Ok (k, st').
Proof.
  intros Hab. unfold random_randint.
  destruct (Nat.ltb_spec b a) as [Hlt|Hle]; [lia|].
  unfold bind, randbelow. destruct (next_index (rng st)) as [i g].
  eexists. eexists. reflexivity.
Qed.
End RandomFacts.

(** *** Length bookkeeping of the three effects *)

Section Lengths.
Context {T : Type} `{Sample T} {G : Type} `{RandomSource T G}.
Variable w : World T.

(** The value and the log that lines 63-69 produce. *)
Lemma rir_reconcile_run n (wav : list T) (st : State G) :
  rir_reconcile n wav st
  = Ok (if length wav <? n then wav ++ repeat s_zero (n - length wav)
        else if n <? length wav then firstn n wav
             else wav,
        mkState (rng st)
          (log st ++
             if (10 <? Z.abs (Z.of_nat n - Z.of_nat (length wav)))%Z
             then [LengthMismatch n (length wav)] else [])).
Proof.
  unfold rir_reconcile, bind, logger_warning, ret, np_pad_right, np_zeros,
    np_slice.
  rewrite Nat.sub_0_r. cbn [skipn].
  destruct (10 <? Z.abs (Z.of_nat n - Z.of_nat (length wav)))%Z;
    cbn [rng log]; [reflexivity|].
  rewrite app_nil_r. destruct st; reflexivity.
Qed.

Lemma rir_reconcile_length n (wav out : list T) (st st' : State G) :
  rir_reconcile n wav st = Ok (out, st') -> length out = n.
Proof.
  rewrite rir_reconcile_run. intros Hrun. injection Hrun as <- _.
  destruct (Nat.ltb_spec (length wav) n) as [Hlt|Hge].
  - rewrite length_app, repeat_length. lia.
  - destruct (Nat.ltb_spec n (length wav)) as [Hgt|Hle].
    + rewrite length_firstn. lia.
    + lia.
Qed.

Lemma RandomRIR_apply_length e (wav out : list T) sr (st st' : State G) :
  RandomRIR_apply w e wav sr st = Ok (out, st') ->
  length out = length wav.
Proof.
  unfold RandomRIR_apply. intros Hrun. inv_bind Hrun.
  destruct (length a =? 0).
  - apply ret_Ok in Hrun. now injection Hrun as <- _.
  - inv_bind Hrun. now apply rir_reconcile_length in Hrun.
Qed.

Lemma RandomGaussianNoise_apply_length e (wav out : list T) sr
    (st st' : State G) :
  RandomGaussianNoise_apply e wav sr st = Ok (out, st') ->
  length out = length wav.
Proof.
  unfold RandomGaussianNoise_apply. intros Hrun.
  inv_bind Hrun. inv_bind Hrun. inv_lift Hrun.
  destruct (np_random_randn_Ok (length wav) st)
    as (noise & s1 & Hnoise & Hlen & _).
  rewrite Hnoise in Hrun0. injection Hrun0 as <- <-.
  apply np_add_length in Hval.
  - now rewrite Hval, np_scale_length.
  - now rewrite !np_scale_length.
Qed.

Lemma wham_align_length e (wav noise out : list T) (st st' : State G) :
  wham_align e wav noise st = Ok (out, st') -> length out = length wav.
Proof.
  unfold wham_align.
  destruct (Nat.ltb_spec (length noise) (length wav)) as [Hlt|Hge].
  - intros Hrun. inv_bind Hrun. inv_lift Hrun.
    apply np_set_slice_length in Hval.
    now rewrite Hval, np_zeros_length.
  - destruct (Nat.ltb_spec (length wav) (length noise)) as [Hgt|Hle].
    + intros Hrun. inv_bind Hrun. apply ret_Ok in Hrun.
      injection Hrun as <- _.
      assert (Ha : a <= length noise - length wav).
      { destruct (wn_deterministic e).
        - apply ret_Ok in Hrun0. injection Hrun0 as <- _. lia.
        - apply random_randint_bounds in Hrun0. lia. }
      rewrite np_slice_length. lia.
    + intros Hrun. apply ret_Ok in Hrun. injection Hrun as <- _. lia.
Qed.

Lemma wham_mix_length e (wav noise out : list T) (st st' : State G) :
  length noise = length wav ->
  wham_mix e wav noise st = Ok (out, st') -> length out = length wav.
Proof.
  intros Hlen. unfold wham_mix. intros Hrun.
  inv_bind Hrun. inv_lift Hrun.
  apply np_add_length in Hval.
  - now rewrite Hval, np_scale_length.
  - now rewrite !np_scale_length.
Qed.

Lemma RandomWhamNoise_apply_length e (wav out : list T) sr
    (st st' : State G) :
  RandomWhamNoise_apply w e wav sr st = Ok (out, st') ->
  length out = length wav.
Proof.
  unfold RandomWhamNoise_apply. intros Hrun. inv_bind Hrun.
  destruct (length a =? 0).
  - apply ret_Ok in Hrun. now injection Hrun as <- _.
  - inv_bind Hrun.
    destruct a0 as [[noise nsr]|].
    + inv_bind Hrun. inv_bind Hrun.
      apply wham_align_length in Hrun3.
      now apply wham_mix_length in Hrun.
    + apply ret_Ok in Hrun. now injection Hrun as <- _.
Qed.
End Lengths.

(** *** The catalogs *)

Section Catalogs.
Context {T : Type} `{Sample T} {G : Type} `{RandomSource T G}.
Variable w : World T.

(** [apply] once the catalog is listed, and when the listing raises. *)
Lemma RandomRIR_apply_listed (e : RandomRIR) (wav : list T) (sr : nat)
    (st : State G) (paths : list Path) :
  rir_paths w e = Ok paths ->
  RandomRIR_apply w e wav sr st
  = if length paths =? 0 then Ok (wav, st)
    else bind (rir_reverberate w e wav sr) (rir_reconcile (length wav)) st.
Proof.
  intros Hpaths. unfold RandomRIR_apply. unfold bind at 1, lift.
  rewrite Hpaths. destruct (length paths =? 0); reflexivity.
Qed.


Lemma _sample_rir_listed (e : RandomRIR) (st : State G) (paths : list Path) :
  rir_paths w e = Ok paths ->
  _sample_rir w e st
  = if length paths =? 0 then Ok (None, st)
    else bind (if rir_deterministic e
               then match nth_error paths 0 with
                    | Some p => ret p
                    | None => raise IndexError
                    end
               else random_choice paths)
           (fun rir_path =>
              bind (lift (np_load w rir_path)) (fun rir => ret (Some rir)))
           st.
Proof.
  intros Hpaths. unfold _sample_rir. unfold bind at 1, lift at 1.
  rewrite Hpaths. destruct (length paths =? 0); reflexivity.
Qed.

Lemma _sample_rir_unlisted (e : RandomRIR) (st : State G) (x : exn) :
  rir_paths w e = Raise x -> _sample_rir w e st = Raise x.
Proof.
  intros Hpaths. unfold _sample_rir, bind, lift. now rewrite Hpaths.
Qed.

(** The convolution needs a catalog that is listed and not empty. *)
Lemma rir_convolve_listed (e : RandomRIR) (wav : list T) (sr : nat)
    (st : State G) (r : list T * State G) :
  rir_convolve w e wav sr st = Ok r ->
  exists paths, rir_paths w e = Ok paths /\ paths <> [].
Proof.
  unfold rir_convolve. intros Hrun. inv_bind Hrun. inv_bind Hrun.
  destruct (rir_paths w e) as [paths|x] eqn:Hpaths.
  - exists paths. split; [reflexivity|]. intros ->.
    rewrite _sample_rir_listed with (paths := []) in Hrun1 by exact Hpaths.
    cbn in Hrun1. injection Hrun1 as <- _. discriminate.
  - rewrite _sample_rir_unlisted with (x := x) in Hrun1 by exact Hpaths.
    discriminate.
Qed.

Lemma rir_reverberate_listed (e : RandomRIR) (wav : list T) (sr : nat)
    (st : State G) (r : list T * State G) :
  rir_reverberate w e wav sr st = Ok r ->
  exists paths, rir_paths w e = Ok paths /\ paths <> [].
Proof.
  unfold rir_reverberate. intros Hrun. inv_bind Hrun.
  eapply rir_convolve_listed. exact Hrun0.
Qed.

Lemma RandomWhamNoise_apply_listed (e : RandomWhamNoise T) (wav : list T)
    (sr : nat) (st : State G) (paths : list Path) :
  noise_paths w e = Ok paths ->
  RandomWhamNoise_apply w e wav sr st
  = if length paths =? 0 then Ok (wav, st)
    else bind (_sample_noise w e)
           (fun sampled =>
              match sampled with
              | None => ret wav
              | Some (noise, nsr) =>
                  bind (if negb (nsr =? sr)
                        then lift (librosa_resample w noise nsr sr)
                        else ret noise)
                    (fun noise =>
                       bind (wham_align e wav noise) (wham_mix e wav))
              end) st.
Proof.
  intros Hpaths. unfold RandomWhamNoise_apply. unfold bind at 1, lift at 1.
  rewrite Hpaths. destruct (length paths =? 0); reflexivity.
Qed.

Lemma RandomWhamNoise_apply_unlisted (e : RandomWhamNoise T) (wav : list T)
    (sr : nat) (st : State G) (x : exn) :
  noise_paths w e = Raise x -> RandomWhamNoise_apply w e wav sr st = Raise x.
Proof.
  intros Hpaths. unfold RandomWhamNoise_apply, bind, lift.
  now rewrite Hpaths.
Qed.

Lemma _sample_noise_listed (e : RandomWhamNoise T) (st : State G)
    (paths : list Path) :
  noise_paths w e = Ok paths ->
  _sample_noise w e st
  = if length paths =? 0 then Ok (None, st)
    else bind (if wn_deterministic e
               then match nth_error paths 0 with
                    | Some p => ret p
                    | None => raise IndexError
                    end
               else random_choice paths)
           (fun path =>
              bind (lift (librosa_load w path))
                   (fun loaded => ret (Some loaded)))
           st.
Proof.
  intros Hpaths. unfold _sample_noise. unfold bind at 1, lift at 1.
  rewrite Hpaths. destruct (length paths =? 0); reflexivity.
Qed.

Lemma _sample_noise_unlisted (e : RandomWhamNoise T) (st : State G)
    (x : exn) :
  noise_paths w e = Raise x -> _sample_noise w e st = Raise x.
Proof.
  intros Hpaths. unfold _sample_noise, bind, lift. now rewrite Hpaths.
Qed.
End Catalogs.

(** C1. Whenever [apply] of a [RandomRIR], a [RandomGaussianNoise] or a
    [RandomWhamNoise] returns a waveform for an input [wav] and a sample
    rate [sr], the returned waveform has the length of [wav]. *)
Theorem apply_preserves_length :
  forall (T : Type) (ops : Sample T) (G : Type) (src : RandomSource T G)
         (w : World T) (e : CustomEffect T) (wav : list T) (sr : nat)
         (st : State G) (out : list T) (st' : State G),
    apply w e wav sr st = Ok (out, st') ->
    length out = length wav.
Proof.
  intros T ops G src w [e|e|e] wav sr st out st' Hrun; cbn in Hrun.
  - eapply RandomRIR_apply_length; eassumption.
  - eapply RandomGaussianNoise_apply_length; eassumption.
  - eapply RandomWhamNoise_apply_length; eassumption.
Qed.

Lemma apply_preserves_length_witness :
  exists out st',
    apply (demo_world [0.5; 1; 0.25]%float [0.5; -0.25; 2]%float 8000)
          (CustomWhamNoise (new_RandomWhamNoise (Some "wham"%string) false))
          [1; -1; 1; -1; 0.5]%float 16000
          (start_state [7] [0.5%float] [])
    = Ok (out, st')
    /\ length out = 5.
Proof.
  eexists. eexists. split.
  - vm_compute. reflexivity.
  - apply (@apply_preserves_length float float_ops (Tape float) tape_source
             (demo_world [0.5; 1; 0.25]%float [0.5; -0.25; 2]%float 8000)
             (CustomWhamNoise (new_RandomWhamNoise (Some "wham"%string) false))
             [1; -1; 1; -1; 0.5]%float 16000
             (start_state [7] [0.5%float] []) _
             (start_state [] [] [])).
    vm_compute. reflexivity.
Defined.

(** *** Empty catalogs *)

(** C3. With an empty asset catalog (an empty asset directory, or none),
    [RandomRIR.apply] and [RandomWhamNoise.apply] return the input waveform
    itself, raise nothing, and leave the random state and the log as they
    were. *)
Theorem empty_catalog_identity :
  forall (T : Type) (ops : Sample T) (G : Type) (src : RandomSource T G)
         (w : World T) (rir : RandomRIR) (wham : RandomWhamNoise T)
         (wav : list T) (sr : nat) (st : State G),
    (rir_paths w rir = Ok [] ->
     RandomRIR_apply w rir wav sr st = Ok (wav, st))
    /\ (noise_paths w wham = Ok [] ->
        RandomWhamNoise_apply w wham wav sr st = Ok (wav, st)).
Proof.
  intros T ops G src w rir wham wav sr st.
  unfold RandomRIR_apply, RandomWhamNoise_apply, bind.
  split; intros ->; reflexivity.
Qed.

Lemma empty_catalog_identity_witness :
  RandomRIR_apply empty_world (new_RandomRIR (Some "rir"%string) false)
    [1; -1; 0.5]%float 16000 (start_state [3] [0.5%float] [])
  = Ok ([1; -1; 0.5]%float, start_state [3] [0.5%float] [])
  /\ RandomWhamNoise_apply empty_world (new_RandomWhamNoise None false)
       [1; -1; 0.5]%float 16000 (start_state [3] [0.5%float] [])
     = Ok ([1; -1; 0.5]%float, start_state [3] [0.5%float] []).
Proof.
  destruct (@empty_catalog_identity float float_ops (Tape float) tape_source
              empty_world (new_RandomRIR (Some "rir"%string) false)
              (new_RandomWhamNoise None false)
              [1; -1; 0.5]%float 16000 (start_state [3] [0.5%float] []))
    as [Hrir Hwham].
  split.
  - apply Hrir. reflexivity.
  - apply Hwham. reflexivity.
Defined.

(** A missing directory is an empty catalog. *)
Lemma missing_dir_empty_catalog (T : Type) (w : World T)
    (rir : RandomRIR) (wham : RandomWhamNoise T) :
  (rir_dir rir = None -> rir_paths w rir = Ok [])
  /\ (noise_dir wham = None -> noise_paths w wham = Ok []).
Proof.
  unfold rir_paths, noise_paths. split; intros ->; reflexivity.
Qed.

(** *** Length reconciliation in RandomRIR *)

(** C5. In [RandomRIR.apply] with a non-empty catalog, once the signal is
    resampled back to the original rate: a warning is logged exactly when
    its length is more than 10 samples away from the original length, and
    in every case [apply] returns; the returned waveform is the resampled
    one padded with zeros on the right when it is shorter, cut on the right
    when it is longer, and has exactly the original length. *)
Theorem rir_length_reconciliation :
  forall (T : Type) (ops : Sample T) (G : Type) (src : RandomSource T G)
         (w : World T) (e : RandomRIR) (wav : list T) (sr : nat)
         (st st1 : State G) (resampled : list T),
    rir_paths w e <> Ok [] ->
    rir_reverberate w e wav sr st = Ok (resampled, st1) ->
    exists out,
      RandomRIR_apply w e wav sr st
      = Ok (out,
            mkState (rng st1)
              (log st1 ++
                 if (10 <? Z.abs (Z.of_nat (length wav)
                                  - Z.of_nat (length resampled)))%Z
                 then [LengthMismatch (length wav) (length resampled)]
                 else []))
      /\ length out = length wav
      /\ (length resampled < length wav ->
          out = resampled ++ repeat s_zero (length wav - length resampled))
      /\ (length wav < length resampled ->
          out = firstn (length wav) resampled)
      /\ (length resampled = length wav -> out = resampled).
Proof.
  intros T ops G src w e wav sr st st1 resampled Hcat Hrev.
  destruct (rir_reverberate_listed _ _ _ _ _ Hrev) as (paths & Hpaths & _).
  rewrite RandomRIR_apply_listed with (paths := paths) by exact Hpaths.
  destruct (Nat.eqb_spec (length paths) 0) as [Hlen|_].
  { apply length_zero_iff_nil in Hlen. subst paths. contradiction. }
  unfold bind. rewrite Hrev, rir_reconcile_run.
  eexists. split; [reflexivity|].
  destruct (Nat.ltb_spec (length resampled) (length wav)) as [Hlt|Hge].
  - repeat split; try lia.
    rewrite length_app, repeat_length. lia.
  - destruct (Nat.ltb_spec (length wav) (length resampled)) as [Hgt|Hle].
    + repeat split; try lia.
      rewrite length_firstn. lia.
    + repeat split; lia.
Qed.

Lemma rir_length_reconciliation_witness :
  exists out,
    RandomRIR_apply (demo_world [1; 0]%float [] 8000)
      (mkRandomRIR (Some "rir"%string) 3 ".npy" true)
      (repeat 0.5%float 40) 100 (start_state [] [] [])
    = Ok (out, mkState (mkTape [] [] []) [LengthMismatch 40 67])
    /\ length out = 40.
Proof.
  destruct (@rir_length_reconciliation float float_ops (Tape float)
              tape_source (demo_world [1; 0]%float [] 8000)
              (mkRandomRIR (Some "rir"%string) 3 ".npy" true)
              (repeat 0.5%float 40) 100 (start_state [] [] [])
              (start_state [] [] [])
              (repeat 0.5%float 67))
    as (out & Hrun & Hlen & _).
  - discriminate.
  - vm_compute. reflexivity.
  - exists out. split; [exact Hrun | exact Hlen].
Defined.

(** *** Energies in exact arithmetic *)

Section RealEnergy.
Local Open Scope R_scope.

Lemma real_sum_from (a : list R) (x : R) :
  fold_left Rplus a x = x + fold_left Rplus a 0.
Proof.
  revert x. induction a as [|y a IH]; intros x; cbn.
  - lra.
  - rewrite (IH (x + y)), (IH (0 + y)). lra.
Qed.

Lemma real_energy_cons (x : R) (a : list R) :
  np_sum (np_square (x :: a)) = x * x + np_sum (np_square a).
Proof.
  unfold np_sum, np_square. cbn.
  rewrite real_sum_from. lra.
Qed.

Lemma real_energy_nil : np_sum (np_square (@nil R)) = 0.
Proof. reflexivity. Qed.

Lemma real_energy_nonneg (a : list R) : 0 <= np_sum (np_square a).
Proof.
  induction a as [|x a IH].
  - rewrite real_energy_nil. lra.
  - rewrite real_energy_cons. nra.
Qed.

Lemma real_energy_scale (a : list R) (c : R) :
  np_sum (np_square (np_scale a c)) = c * c * np_sum (np_square a).
Proof.
  induction a as [|x a IH].
  - cbn [np_scale map]. rewrite real_energy_nil. lra.
  - cbn [np_scale map]. fold (np_scale a c).
    rewrite !real_energy_cons, IH. cbn. lra.
Qed.

Lemma real_energy_zero_iff (a : list R) :
  np_sum (np_square a) = 0 <-> Forall (fun x => x = 0) a.
Proof.
  induction a as [|x a IH].
  - split; [constructor | reflexivity].
  - rewrite real_energy_cons. pose proof (real_energy_nonneg a) as Hnn.
    split.
    + intros Hsum. constructor; [nra|]. apply IH. nra.
    + intros Hall. inversion Hall as [|? ? Hx Ha]; subst.
      apply IH in Ha. rewrite Ha. lra.
Qed.

Lemma real_energy_silent (n : nat) : np_sum (np_square (repeat 0 n)) = 0.
Proof. apply real_energy_zero_iff, Forall_forall. intros x Hx.
  now apply repeat_spec in Hx. Qed.

Lemma real_scale_by_zero (a : list R) : np_scale a 0 = repeat 0 (length a).
Proof.
  unfold np_scale. induction a as [|x a IH]; cbn; [reflexivity|].
  rewrite <- IH. f_equal. lra.
Qed.

Lemma real_scale_silent (n : nat) (c : R) : np_scale (repeat 0 n) c = repeat 0 n.
Proof.
  unfold np_scale. induction n as [|n IH]; cbn; [reflexivity|].
  cbn in IH. rewrite IH. f_equal. lra.
Qed.

Lemma real_add_silent (n : nat) :
  np_add (repeat 0 n) (repeat 0 n) = Ok (repeat 0 n).
Proof.
  rewrite np_add_same_length by reflexivity. f_equal.
  induction n as [|n IH]; cbn; [reflexivity|].
  cbn in IH. rewrite IH. f_equal. lra.
Qed.
End RealEnergy.

(** *** RandomGaussianNoise on silent input *)

Section GaussianSilent.
Local Open Scope R_scope.
Context {G : Type} {src : RandomSource R G}.

Lemma gaussian_gain_silent (n : nat) (noise : list R) :
  s_sqrt (quotient (gaussian_division (repeat 0 n) noise)) = 0.
Proof.
  unfold quotient, gaussian_division. cbn [dividend divisor].
  rewrite real_energy_silent. cbn.
  unfold Rdiv. rewrite Rmult_0_l. apply sqrt_0.
Qed.

Lemma gaussian_apply_silent (e : RandomGaussianNoise R) (n sr : nat)
    (st : State G) :
  exists st',
    RandomGaussianNoise_apply e (repeat 0 n) sr st = Ok (repeat 0 n, st').
Proof.
  unfold RandomGaussianNoise_apply, bind.
  rewrite repeat_length.
  destruct (np_random_randn_Ok n st) as (noise & s1 & Hnoise & Hlen & _).
  rewrite Hnoise, gaussian_gain_silent, real_scale_by_zero, Hlen.
  destruct (random_uniform_Ok (fst (gn_alpha_range e)) (snd (gn_alpha_range e)) s1)
    as (s2 & Halpha & _).
  rewrite Halpha, !real_scale_silent, real_add_silent.
  exists s2. reflexivity.
Qed.
End GaussianSilent.

(** C10. For an all-zero input, any drawn noise vector of non-zero energy
    and any mixing coefficient, [RandomGaussianNoise.apply] returns an
    all-zero waveform: the divisor is the energy of the noise, which is not
    zero, the quotient [0 / noise_energy] and so the gain are zero, and the
    noise term vanishes.  Samples are exact reals. *)
Theorem gaussian_silent_input_stays_silent :
  forall (G : Type) (src : RandomSource R G) (e : RandomGaussianNoise R)
         (n sr : nat) (st : State G),
    let wav := repeat 0%R n in
    let noise := fst (randn_draw n (rng st)) in
    np_sum (np_square noise) <> 0%R ->
    divisor (gaussian_division wav noise) <> 0%R
    /\ quotient (gaussian_division wav noise) = 0%R
    /\ s_sqrt (quotient (gaussian_division wav noise)) = 0%R
    /\ exists st',
         RandomGaussianNoise_apply e wav sr st = Ok (repeat 0%R n, st').
Proof.
  intros G src e n sr st wav noise Hnoise. subst wav.
  split; [exact Hnoise|]. split; [|split].
  - unfold quotient, gaussian_division. cbn [dividend divisor].
    rewrite real_energy_silent. cbn. unfold Rdiv. apply Rmult_0_l.
  - apply gaussian_gain_silent.
  - apply gaussian_apply_silent.
Qed.

Lemma gaussian_silent_input_stays_silent_witness :
  exists st',
    RandomGaussianNoise_apply new_RandomGaussianNoise [0; 0]%R 16000
      (start_state [] [0.5%R] [2; -1]%R)
    = Ok ([0; 0]%R, st').
Proof.
  apply (@gaussian_silent_input_stays_silent (Tape R) tape_source
           new_RandomGaussianNoise 2 16000
           (start_state [] [0.5%R] [2; -1]%R)).
  cbn. lra.
Defined.

(** The same run in binary64. *)
Example gaussian_silent_binary64 :
  RandomGaussianNoise_apply new_RandomGaussianNoise [0; 0]%float 16000
    (start_state [] [0.5%float] [2; -1]%float)
  = Ok ([0; 0]%float, start_state [] [] []).
Proof. vm_compute. reflexivity. Qed.

(** *** Energy-matched mixing *)

Section Mixing.
Context {T : Type} `{Sample T}.

(** [a * c + b * d] on arrays of one length. *)
Lemma np_mix_same_length (a b : list T) (c d : T) :
  length a = length b ->
  np_add (np_scale a c) (np_scale b d)
  = Ok (map (fun p => s_add (s_mul (fst p) c) (s_mul (snd p) d))
            (combine a b)).
Proof.
  intros Hlen. rewrite np_add_same_length by now rewrite !np_scale_length.
  f_equal. unfold np_scale. revert b Hlen.
  induction a as [|x a IH]; intros [|y b] Hlen; try discriminate;
    [reflexivity|].
  cbn. f_equal. apply IH. now injection Hlen.
Qed.
End Mixing.

(** The runs of the two mixing effects. *)

Section MixRuns.
Context {T : Type} `{Sample T} {G : Type} `{RandomSource T G}.

(** [wav * alpha + noise * (1 - alpha)], sample by sample. *)
Definition mixed (alpha : T) (wav noise : list T) : list T :=
  map (fun p => s_add (s_mul (fst p) alpha)
                      (s_mul (snd p) (s_sub s_one alpha)))
      (combine wav noise).

Lemma wham_mix_run (e : RandomWhamNoise T) (wav noise : list T)
    (st : State G) :
  length noise = length wav ->
  wham_mix e wav noise st
  = Ok (mixed (s_add (fst (wn_alpha_range e))
                 (s_mul (s_sub (snd (wn_alpha_range e))
                           (fst (wn_alpha_range e)))
                    (fst (next_unit (rng st)))))
          wav
          (np_scale noise (s_sqrt (quotient (wham_division wav noise)))),
        with_rng st (snd (next_unit (rng st)))).
Proof.
  intros Hlen. unfold wham_mix, bind, random_uniform.
  destruct (next_unit (rng st)) as [u g]. cbn [fst snd]. unfold lift.
  rewrite np_mix_same_length by now rewrite np_scale_length.
  reflexivity.
Qed.

Lemma gaussian_apply_run (e : RandomGaussianNoise T) (wav : list T)
    (sr : nat) (st : State G) :
  let drawn := randn_draw (length wav) (rng st) in
  RandomGaussianNoise_apply e wav sr st
  = Ok (mixed (s_add (fst (gn_alpha_range e))
                 (s_mul (s_sub (snd (gn_alpha_range e))
                           (fst (gn_alpha_range e)))
                    (fst (next_unit (snd drawn)))))
          wav
          (np_scale (fst drawn)
             (s_sqrt (quotient (gaussian_division wav (fst drawn))))),
        with_rng (with_rng st (snd drawn)) (snd (next_unit (snd drawn)))).
Proof.
  intros drawn. unfold RandomGaussianNoise_apply, bind, np_random_randn.
  pose proof (randn_draw_length (length wav) (rng st)) as Hlen.
  fold drawn in Hlen |- *. destruct drawn as [noise g1]. cbn [fst snd] in *.
  unfold random_uniform. cbn [rng with_rng].
  destruct (next_unit g1) as [u g2]. cbn [fst snd]. unfold lift.
  rewrite np_mix_same_length by now rewrite np_scale_length.
  reflexivity.
Qed.
End MixRuns.

Section RealMixing.
Local Open Scope R_scope.

Lemma real_mix_alpha_one (a b : list R) :
  length a = length b ->
  map (fun p => fst p * 1 + snd p * (1 - 1)) (combine a b) = a.
Proof.
  revert b. induction a as [|x a IH]; intros [|y b] Hlen; try discriminate;
    [reflexivity|].
  cbn. f_equal; [lra|]. apply IH. now injection Hlen.
Qed.

Lemma real_mix_alpha_zero (a b : list R) :
  length a = length b ->
  map (fun p => fst p * 0 + snd p * (1 - 0)) (combine a b) = b.
Proof.
  revert b. induction a as [|x a IH]; intros [|y b] Hlen; try discriminate;
    [reflexivity|].
  cbn. f_equal; [lra|]. apply IH. now injection Hlen.
Qed.

(** Scaling by [sqrt(target / energy)] gives the energy [target]. *)
Lemma real_energy_matched (noise : list R) (target : R) :
  0 <= target ->
  np_sum (np_square noise) <> 0 ->
  np_sum (np_square
            (np_scale noise (sqrt (target / np_sum (np_square noise)))))
  = target.
Proof.
  intros Htarget Hne.
  pose proof (real_energy_nonneg noise) as Hnn.
  rewrite real_energy_scale, sqrt_sqrt.
  - field. exact Hne.
  - apply Rmult_le_pos; [exact Htarget|].
    apply Rlt_le, Rinv_0_lt_compat. lra.
Qed.
End RealMixing.

(** C7. [RandomGaussianNoise.apply] draws a noise vector of the length of
    the input, scales it by [sqrt(wav_energy / noise_energy)], which makes
    its energy (the sum of its squared samples) the energy of the input
    whenever the drawn noise has energy, draws [alpha] as
    [lo + (hi - lo) * random()] from the configured range (0.8 to 1 by
    default), and returns [wav * alpha + noise * (1 - alpha)]; so with
    [alpha = 1] it returns [wav] and with [alpha = 0] it returns the
    energy-matched noise.  Samples are exact reals. *)
Theorem gaussian_energy_matched_mix :
  forall (G : Type) (src : RandomSource R G) (e : RandomGaussianNoise R)
         (wav : list R) (sr : nat) (st : State G),
    let drawn := randn_draw (length wav) (rng st) in
    let u := fst (next_unit (snd drawn)) in
    let lo := fst (gn_alpha_range e) in
    let hi := snd (gn_alpha_range e) in
    let alpha := (lo + (hi - lo) * u)%R in
    let noise :=
      np_scale (fst drawn)
        (sqrt (np_sum (np_square wav) / np_sum (np_square (fst drawn)))) in
    let out :=
      map (fun p => (fst p * alpha + snd p * (1 - alpha))%R)
          (combine wav noise) in
    length (fst drawn) = length wav
    /\ (np_sum (np_square (fst drawn)) <> 0%R ->
        np_sum (np_square noise) = np_sum (np_square wav))
    /\ ((0 <= u <= 1)%R -> (lo <= hi)%R -> (lo <= alpha <= hi)%R)
    /\ gn_alpha_range (@new_RandomGaussianNoise R _) = (0.8%R, 1%R)
    /\ (exists st', RandomGaussianNoise_apply e wav sr st = Ok (out, st'))
    /\ (alpha = 1%R -> out = wav)
    /\ (alpha = 0%R -> out = noise).
Proof.
  intros G src e wav sr st drawn u lo hi alpha noise out.
  assert (Hlen0 : length (fst drawn) = length wav)
    by apply randn_draw_length.
  assert (Hlen : length wav = length noise).
  { subst noise. now rewrite np_scale_length. }
  split; [exact Hlen0|]. split; [|split; [|split; [|split; [|split]]]].
  - intros Hne. subst noise.
    apply real_energy_matched; [apply real_energy_nonneg | exact Hne].
  - intros Hu Hrange. subst alpha. nra.
  - reflexivity.
  - unfold RandomGaussianNoise_apply, bind, np_random_randn.
    fold drawn. destruct drawn as [noise0 g1] eqn:Hdrawn.
    unfold random_uniform. cbn [rng with_rng].
    cbn [fst snd] in u, noise.
    destruct (next_unit g1) as [u0 g2] eqn:Hunit.
    cbn [fst] in u. unfold lift, quotient, gaussian_division.
    cbn [dividend divisor].
    fold lo hi. cbn [s_sqrt s_div s_add s_sub s_mul s_one real_ops].
    fold u alpha noise.
    rewrite np_mix_same_length by exact Hlen.
    eexists. reflexivity.
  - intros Halpha. subst out. rewrite Halpha.
    apply real_mix_alpha_one. exact Hlen.
  - intros Halpha. subst out. rewrite Halpha.
    apply real_mix_alpha_zero. exact Hlen.
Qed.

Lemma gaussian_energy_matched_mix_witness :
  exists st',
    RandomGaussianNoise_apply (mkRandomGaussianNoise (0, 1)%R)
      [1; -1; 1; -1]%R 16000 (start_state [] [1%R] [2; 2; -2; -2]%R)
    = Ok ([1; -1; 1; -1]%R, st').
Proof.
  destruct (@gaussian_energy_matched_mix (Tape R) tape_source
              (mkRandomGaussianNoise (0, 1)%R) [1; -1; 1; -1]%R 16000
              (start_state [] [1%R] [2; 2; -2; -2]%R))
    as (_ & _ & _ & _ & (st' & Hrun) & Hone & _).
  exists st'. rewrite Hone in Hrun; [exact Hrun|].
  cbn. lra.
Defined.

(** The energy-matched scenario in binary64: [wav = [1, -1, 1, -1]] and a
    drawn noise that is scaled to the energy 4. *)
Example gaussian_scenario_alpha_one :
  RandomGaussianNoise_apply (mkRandomGaussianNoise (0, 1)%float)
    [1; -1; 1; -1]%float 16000
    (start_state [] [1%float] [2; 2; -2; -2]%float)
  = Ok ([1; -1; 1; -1]%float, start_state [] [] []).
Proof. vm_compute. reflexivity. Qed.

Example gaussian_scenario_alpha_zero :
  RandomGaussianNoise_apply (mkRandomGaussianNoise (0, 1)%float)
    [1; -1; 1; -1]%float 16000
    (start_state [] [0%float] [2; 2; -2; -2]%float)
  = Ok ([1; 1; -1; -1]%float, start_state [] [] []).
Proof. vm_compute. reflexivity. Qed.

(** *** When the effects return *)

Section Returns.
Context {T : Type} `{Sample T} {G : Type} `{RandomSource T G}.
Variable w : World T.

Lemma random_choice_Ok {A} (seq : list A) (st : State G) :
  seq <> [] ->
  exists a st', random_choice seq st = Ok (a, st') /\ In a seq.
Proof.
  intros Hne. destruct seq as [|x seq]; [contradiction|].
  unfold random_choice, bind, randbelow.
  destruct (next_index (rng st)) as [k g].
  assert (Hlt : k mod length (x :: seq) < length (x :: seq))
    by (apply Nat.mod_upper_bound; discriminate).
  destruct (nth_error (x :: seq) (k mod length (x :: seq))) as [a|] eqn:Hnth.
  - exists a, (with_rng st g). split; [reflexivity|].
    eapply nth_error_In; eassumption.
  - apply nth_error_None in Hnth. lia.
Qed.

(** [RandomGaussianNoise.apply] raises nothing. *)
Lemma RandomGaussianNoise_apply_returns (e : RandomGaussianNoise T)
    (wav : list T) (sr : nat) (st : State G) :
  exists out st', RandomGaussianNoise_apply e wav sr st = Ok (out, st').
Proof.
  unfold RandomGaussianNoise_apply, bind.
  destruct (np_random_randn_Ok (length wav) st)
    as (noise & s1 & Hnoise & Hlen & _).
  rewrite Hnoise.
  destruct (random_uniform_Ok (fst (gn_alpha_range e))
              (snd (gn_alpha_range e)) s1) as (s2 & Halpha & _).
  rewrite Halpha. unfold lift.
  rewrite np_mix_same_length by now rewrite np_scale_length.
  eexists. eexists. reflexivity.
Qed.

(** Lines 116-123 raise nothing: the slice assignment fits the buffer. *)
Lemma wham_align_returns (e : RandomWhamNoise T) (wav noise : list T)
    (st : State G) :
  exists out st', wham_align e wav noise st = Ok (out, st').
Proof.
  unfold wham_align.
  destruct (Nat.ltb_spec (length noise) (length wav)) as [Hlt|Hge].
  - assert (Hstart : exists start st1,
               (if wn_deterministic e then ret 0
                else random_randint 0 (length wav - length noise)) st
               = Ok (start, st1)
               /\ start <= length wav - length noise).
    { destruct (wn_deterministic e).
      - exists 0, st. split; [reflexivity|lia].
      - destruct (random_randint_Ok (a:=0) (b:=length wav - length noise) st)
          as (k & st1 & Hk); [lia|].
        exists k, st1. split; [exact Hk|].
        apply random_randint_bounds in Hk. lia. }
    destruct Hstart as (start & st1 & Hrun & Hbound).
    unfold bind. rewrite Hrun. unfold lift, np_set_slice.
    rewrite np_zeros_length.
    replace (Nat.max (Nat.min start (length wav))
               (Nat.min (start + length noise) (length wav))
             - Nat.min start (length wav))
      with (length noise) by lia.
    rewrite Nat.eqb_refl. eexists. eexists. reflexivity.
  - destruct (length wav <? length noise).
    + unfold bind.
      destruct (wn_deterministic e).
      * eexists. eexists. reflexivity.
      * destruct (random_randint_Ok (a:=0) (b:=length noise - length wav) st)
          as (k & st1 & Hk); [lia|].
        rewrite Hk. eexists. eexists. reflexivity.
    + eexists. eexists. reflexivity.
Qed.

Lemma wham_mix_returns (e : RandomWhamNoise T) (wav noise : list T)
    (st : State G) :
  length noise = length wav ->
  exists out st', wham_mix e wav noise st = Ok (out, st').
Proof.
  intros Hlen. unfold wham_mix, bind.
  destruct (random_uniform_Ok (fst (wn_alpha_range e))
              (snd (wn_alpha_range e)) st) as (s1 & Halpha & _).
  rewrite Halpha. unfold lift.
  rewrite np_mix_same_length by now rewrite np_scale_length.
  eexists. eexists. reflexivity.
Qed.

(** A returning [apply] over a catalog that is not empty has mixed the
    input with a noise of the input's length (lines 124-128). *)
Lemma RandomWhamNoise_apply_mixes (e : RandomWhamNoise T) (wav out : list T)
    (sr : nat) (st st' : State G) :
  RandomWhamNoise_apply w e wav sr st = Ok (out, st') ->
  (noise_paths w e = Ok [] /\ out = wav /\ st' = st)
  \/ exists aligned st2,
       length aligned = length wav
       /\ wham_mix e wav aligned st2 = Ok (out, st').
Proof.
  intros Hrun.
  destruct (noise_paths w e) as [paths|x] eqn:Hpaths.
  2:{ rewrite RandomWhamNoise_apply_unlisted with (x := x) in Hrun
        by exact Hpaths.
      discriminate. }
  rewrite RandomWhamNoise_apply_listed with (paths := paths) in Hrun
    by exact Hpaths.
  destruct (Nat.eqb_spec (length paths) 0) as [Hnil|Hne].
  { left. apply length_zero_iff_nil in Hnil. subst paths.
    injection Hrun as <- <-. repeat split. }
  right. inv_bind Hrun.
  rewrite _sample_noise_listed with (paths := paths) in Hrun0 by exact Hpaths.
  destruct (Nat.eqb_spec (length paths) 0) as [Hnil|_]; [contradiction|].
  inv_bind Hrun0. inv_bind Hrun0. apply ret_Ok in Hrun0.
  injection Hrun0 as <- <-. destruct a1 as [noise nsr].
  inv_bind Hrun. inv_bind Hrun.
  exists a1, st3. split; [|exact Hrun].
  eapply wham_align_length. exact Hrun3.
Qed.

(** [RandomWhamNoise.apply] returns whenever the catalog is listed, its
    clips load, and the resampling of a loaded clip to [sr] returns. *)
Lemma RandomWhamNoise_apply_returns (e : RandomWhamNoise T) (wav : list T)
    (sr : nat) (st : State G) (paths : list Path) :
  noise_paths w e = Ok paths ->
  (forall path, In path paths ->
                exists loaded, librosa_load w path = Ok loaded) ->
  (forall path noise nsr,
      In path paths -> librosa_load w path = Ok (noise, nsr) -> nsr <> sr ->
      exists noise', librosa_resample w noise nsr sr = Ok noise') ->
  exists out st', RandomWhamNoise_apply w e wav sr st = Ok (out, st').
Proof.
  intros Hpaths Hload Hres.
  rewrite RandomWhamNoise_apply_listed with (paths := paths) by exact Hpaths.
  destruct (Nat.eqb_spec (length paths) 0) as [Hnil|Hne].
  { eexists. eexists. reflexivity. }
  assert (Hnonempty : paths <> []).
  { intros Hnil. rewrite Hnil in Hne. now apply Hne. }
  assert (Hpath : exists path st1,
             (if wn_deterministic e
              then match nth_error paths 0 with
                   | Some p => ret p
                   | None => raise IndexError
                   end
              else random_choice paths) st = Ok (path, st1)
             /\ In path paths).
  { destruct (wn_deterministic e).
    - destruct paths as [|p ps]; [contradiction|].
      exists p, st. split; [reflexivity | now left].
    - apply random_choice_Ok. exact Hnonempty. }
  destruct Hpath as (path & st1 & Hrun & Hin).
  destruct (Hload path Hin) as ([noise nsr] & Hloaded).
  unfold bind at 1.
  rewrite _sample_noise_listed with (paths := paths) by exact Hpaths.
  destruct (Nat.eqb_spec (length paths) 0) as [Hnil|_];
    [contradiction|].
  unfold bind at 1. rewrite Hrun.
  unfold bind at 1. unfold lift at 1. rewrite Hloaded. unfold ret at 1.
  assert (Hnoise : exists noise' st2,
             (if negb (nsr =? sr) then lift (librosa_resample w noise nsr sr)
              else ret noise) st1 = Ok (noise', st2)).
  { destruct (Nat.eqb_spec nsr sr) as [Heq|Hneq]; cbn [negb].
    - eexists. eexists. reflexivity.
    - destruct (Hres path noise nsr Hin Hloaded Hneq) as (y' & Hy).
      unfold lift. rewrite Hy. eexists. eexists. reflexivity. }
  destruct Hnoise as (noise' & st2 & Hnoise).
  unfold bind at 1. rewrite Hnoise.
  destruct (wham_align_returns e wav noise' st2) as (aligned & st3 & Halign).
  unfold bind at 1. rewrite Halign.
  apply wham_mix_returns.
  eapply wham_align_length. exact Halign.
Qed.
End Returns.

(** A clip of three samples aligned to ten in deterministic mode: it is
    embedded at offset 0 and the samples 3 to 9 stay zero; nothing is drawn. *)
Example wham_align_pads_at_offset_zero :
  wham_align (new_RandomWhamNoise (Some "wham"%string) true)
    (repeat 1%float 10) [-1; 0.5; 0.25]%float (start_state [4] [0.5%float] [])
  = Ok ([-1; 0.5; 0.25; 0; 0; 0; 0; 0; 0; 0]%float,
        start_state [4] [0.5%float] []).
Proof. vm_compute. reflexivity. Qed.

(** *** The divisions of the energy matching *)

Section TracedRuns.
Local Open Scope R_scope.
Context {G : Type} (src : RandomSource R G).

(** An energy in the recording arithmetic: the energy, and no division. *)
Lemma traced_sum_squares (a : list R) (acc : R) :
  fold_left (@s_add Traced traced_ops)
    (map (fun x => @s_mul Traced traced_ops x x) (map untraced a))
    (untraced acc)
  = untraced (fold_left Rplus (map (fun x => x * x) a) acc).
Proof.
  revert acc. induction a as [|x a IH]; intros acc; [reflexivity|].
  cbn [map fold_left]. rewrite <- IH. reflexivity.
Qed.

Lemma traced_energy (a : list R) :
  @np_sum Traced traced_ops (@np_square Traced traced_ops (map untraced a))
  = untraced (np_sum (np_square a)).
Proof. apply traced_sum_squares. Qed.


(** A mix whose gain came out of the divisions [ds]: they are the
    divisions behind every sample of the mix. *)
Lemma traced_mixed (alpha gain : R) (ds : list (Division R))
    (wav noise : list R) :
  @mixed Traced traced_ops (untraced alpha) (map untraced wav)
    (@np_scale Traced traced_ops (map untraced noise) (mkTraced gain ds))
  = map (fun y => mkTraced y ds) (mixed alpha wav (np_scale noise gain)).
Proof.
  unfold mixed, np_scale. revert noise.
  induction wav as [|x wav IH]; intros [|y noise]; try reflexivity.
  cbn [map combine fst snd]. rewrite IH. f_equal.
  cbv [s_add s_mul s_sub s_one traced_ops real_ops traced2 untraced value
       divisions].
  cbn [app]. rewrite app_nil_r. reflexivity.
Qed.

Lemma traced_values (ds : list (Division R)) (a : list R) :
  map value (map (fun y => mkTraced y ds) a) = a.
Proof. rewrite map_map. cbn. apply map_id. Qed.

Lemma traced_divisions (ds : list (Division R)) (a : list R) :
  Forall (fun y => divisions y = ds) (map (fun y => mkTraced y ds) a).
Proof. apply Forall_map, Forall_forall. reflexivity. Qed.


(** Lines 124-128 in the recording arithmetic and in exact arithmetic. *)
Lemma wham_mix_traced_run (lo hi : R) (dir : option Path)
    (deterministic : bool) (wav noise : list R) (st : State G) :
  length noise = length wav ->
  let division :=
    mkDivision (np_sum (np_square wav) + 1e-7)
               (np_sum (np_square noise) + 1e-7) in
  let alpha := lo + (hi - lo) * fst (@next_unit R G src (rng st)) in
  let out := mixed alpha wav (np_scale noise (sqrt (quotient division))) in
  let st' := with_rng st (snd (@next_unit R G src (rng st))) in
  @wham_mix Traced traced_ops G (traced_source src)
    (mkRandomWhamNoise dir deterministic (untraced lo, untraced hi))
    (map untraced wav) (map untraced noise) st
  = Ok (map (fun y => mkTraced y [division]) out, st')
  /\ @wham_mix R real_ops G src
       (mkRandomWhamNoise dir deterministic (lo, hi)) wav noise st
     = Ok (out, st').
Proof.
  intros Hlen division alpha out st'. split.
  - rewrite (@wham_mix_run Traced traced_ops G (traced_source src))
      by now rewrite !length_map.
    cbn [fst snd wn_alpha_range next_unit traced_source].
    unfold quotient, wham_division. cbn [dividend divisor].
    rewrite !traced_energy. subst out.
    rewrite <- (traced_mixed alpha (sqrt (quotient division)) [division]).
    reflexivity.
  - rewrite (@wham_mix_run R real_ops G src) by exact Hlen. reflexivity.
Qed.
End TracedRuns.



(** In binary64 the division by zero shows in the output: after an all-zero
    draw every returned sample is not-a-number. *)
Example gaussian_zero_noise_binary64 :
  RandomGaussianNoise_apply new_RandomGaussianNoise [1; -1]%float 16000
    (start_state [] [0.5%float] [0; 0]%float)
  = Ok ([nan; nan]%float, start_state [] [] []).
Proof. vm_compute. reflexivity. Qed.

(** C8.  The energy-matched mixing of [RandomWhamNoise.apply] (lines
    124-128) performs one division, the energy of the input plus [1e-7]
    divided by the energy of the noise plus [1e-7]: for every input, an
    all-zero one included, and every noise aligned to it, that division
    and no other is behind every sample of the mix, its divisor is at least
    [1e-7], and the mixing returns.  A returning [apply] over a catalog
    that is not empty has mixed the input with an aligned noise in this
    way, and [apply] returns whenever the catalog is listed, its clips
    load, and the resampling of a loaded clip to the input's rate
    returns. *)
Theorem wham_mix_divides_by_positive :
  forall (G : Type) (src : RandomSource R G) (lo hi : R)
         (dir : option Path) (deterministic : bool) (wav noise : list R)
         (st : State G),
    length noise = length wav ->
    let division :=
      mkDivision (np_sum (np_square wav) + 1e-7)%R
                 (np_sum (np_square noise) + 1e-7)%R in
    (1e-7 <= divisor division)%R
    /\ (exists out st',
           @wham_mix Traced traced_ops G (traced_source src)
             (mkRandomWhamNoise dir deterministic (untraced lo, untraced hi))
             (map untraced wav) (map untraced noise) st
           = Ok (out, st')
           /\ @wham_mix R real_ops G src
                (mkRandomWhamNoise dir deterministic (lo, hi)) wav noise st
              = Ok (map value out, st')
           /\ length out = length wav
           /\ Forall (fun y => divisions y = [division]) out)
    /\ (forall (w : World R) (e : RandomWhamNoise R) (wav' out' : list R)
               (sr : nat) (st0 st0' : State G),
           RandomWhamNoise_apply w e wav' sr st0 = Ok (out', st0') ->
           (noise_paths w e = Ok [] /\ out' = wav' /\ st0' = st0)
           \/ exists aligned st1,
                length aligned = length wav'
                /\ wham_mix e wav' aligned st1 = Ok (out', st0'))
    /\ (forall (w : World R) (e : RandomWhamNoise R) (wav' : list R)
               (sr : nat) (st0 : State G) (paths : list Path),
           noise_paths w e = Ok paths ->
           (forall path, In path paths ->
                         exists loaded, librosa_load w path = Ok loaded) ->
           (forall path clip nsr,
               In path paths -> librosa_load w path = Ok (clip, nsr) ->
               nsr <> sr ->
               exists clip', librosa_resample w clip nsr sr = Ok clip') ->
           exists out' st0',
             RandomWhamNoise_apply w e wav' sr st0 = Ok (out', st0')).
Proof.
  intros G src lo hi dir deterministic wav noise st Hlen division.
  destruct (wham_mix_traced_run src lo hi dir deterministic wav noise st Hlen)
    as [Htraced Hreal].
  cbv zeta in Htraced, Hreal. fold division in Htraced, Hreal.
  split; [|split; [|split]].
  - pose proof (real_energy_nonneg noise). cbn. lra.
  - eexists. eexists. split; [exact Htraced|].
    rewrite traced_values. split; [exact Hreal|].
    split; [|apply traced_divisions].
    rewrite length_map. unfold mixed.
    rewrite length_map, length_combine, np_scale_length, Hlen.
    apply Nat.min_id.
  - intros w e wav' out' sr st0 st0'. apply RandomWhamNoise_apply_mixes.
  - intros w e wav' sr st0 paths. apply RandomWhamNoise_apply_returns.
Qed.

Lemma wham_mix_divides_by_positive_witness :
  exists out st',
    @wham_mix Traced traced_ops (Tape R) (traced_source tape_source)
      (mkRandomWhamNoise (Some "wham"%string) true (untraced 0.8, untraced 1))
      [untraced 0; untraced 0] [untraced 0.5; untraced (-0.25)]
      (start_state [] [0.5%R] [])
    = Ok (out, st')
    /\ Forall (fun y =>
                 divisions y
                 = [mkDivision (np_sum (np_square [0; 0]%R) + 1e-7)%R
                      (np_sum (np_square [0.5; -0.25]%R) + 1e-7)%R]) out
    /\ exists out' st0',
         RandomWhamNoise_apply (unit_world [0.5; -0.25]%R 16000)
           (new_RandomWhamNoise (Some "wham"%string) true) [0; 0]%R 16000
           (start_state [] [0.5%R] [])
         = Ok (out', st0').
Proof.
  destruct (@wham_mix_divides_by_positive (Tape R) tape_source 0.8%R 1%R
              (Some "wham"%string) true [0; 0]%R [0.5; -0.25]%R
              (start_state [] [0.5%R] []) eq_refl)
    as (_ & (out & st' & Hrun & _ & _ & Hdiv) & _ & Hreturns).
  exists out, st'. split; [exact Hrun|]. split; [exact Hdiv|].
  apply Hreturns with (paths := ["wham/0.wav"%string]).
  - reflexivity.
  - intros path _. eexists. reflexivity.
  - intros path clip nsr _ Hload Hrate. cbn in Hload.
    injection Hload as _ <-. contradiction.
Defined.

(** *** Peak normalisation in RandomRIR *)

Section RealPeak.
Local Open Scope R_scope.

Lemma real_fold_max_ge (a : list R) (x : R) :
  x <= fold_left Rmax a x /\ Forall (fun y => y <= fold_left Rmax a x) a.
Proof.
  revert x. induction a as [|y a IH]; intros x; cbn.
  - split; [lra | constructor].
  - destruct (IH (Rmax x y)) as [Hacc Hall].
    pose proof (Rbasic_fun.Rmax_l x y). pose proof (Rbasic_fun.Rmax_r x y).
    split; [lra|]. constructor; [lra | exact Hall].
Qed.

Lemma real_peak_bound (a : list R) (p : R) :
  np_max (np_abs a) = Ok p -> Forall (fun x => Rabs x <= p) a.
Proof.
  destruct a as [|x a]; cbn; [discriminate|].
  intros Hp. injection Hp as <-.
  destruct (real_fold_max_ge (map Rabs a) (Rabs x)) as [Hx Ha].
  constructor; [exact Hx|].
  rewrite Forall_map in Ha. exact Ha.
Qed.

Lemma real_fold_max_scale (a : list R) (x c : R) :
  0 <= c ->
  fold_left Rmax (map Rabs (map (fun y => y * c) a)) (x * c)
  = fold_left Rmax (map Rabs a) x * c.
Proof.
  intros Hc. revert x. induction a as [|y a IH]; intros x; cbn;
    [reflexivity|].
  rewrite Rabs_mult, (Rabs_pos_eq c Hc).
  rewrite (Rmult_comm x c), (Rmult_comm (Rabs y) c), RmaxRmult by exact Hc.
  rewrite (Rmult_comm c). apply IH.
Qed.

Lemma real_peak_scale (a : list R) (p c : R) :
  0 <= c ->
  np_max (np_abs a) = Ok p ->
  np_max (np_abs (map (fun x => x * c) a)) = Ok (p * c).
Proof.
  intros Hc. destruct a as [|x a]; cbn; [discriminate|].
  intros Hp. injection Hp as <-. f_equal.
  rewrite Rabs_mult, (Rabs_pos_eq c Hc).
  apply real_fold_max_scale. exact Hc.
Qed.

(** Lines 57-59 when the peak exceeds 0.99. *)
Lemma rir_normalize_rescales (wav : list R) (p : R) :
  np_max (np_abs wav) = Ok p ->
  0.99 < p ->
  rir_normalize wav = Ok (map (fun x => x * (0.98 / p)) wav).
Proof.
  intros Hp Hgt. unfold rir_normalize. rewrite Hp. cbn.
  unfold Rgtb. destruct (Rlt_dec 0.99 p) as [_|Hn]; [|contradiction].
  f_equal. unfold np_scale. rewrite map_map.
  apply map_ext. intros x. cbn. field. lra.
Qed.

(** Lines 57-59 when the peak does not exceed 0.99. *)
Lemma rir_normalize_keeps (wav : list R) (p : R) :
  np_max (np_abs wav) = Ok p ->
  p <= 0.99 ->
  rir_normalize wav = Ok wav.
Proof.
  intros Hp Hle. unfold rir_normalize. rewrite Hp. cbn.
  unfold Rgtb. destruct (Rlt_dec 0.99 p) as [Hlt|_]; [lra|reflexivity].
Qed.

Lemma real_forall_firstn (P : R -> Prop) (n : nat) (a : list R) :
  Forall P a -> Forall P (firstn n a).
Proof.
  intros Hall. rewrite <- (firstn_skipn n a) in Hall.
  now apply Forall_app in Hall.
Qed.
End RealPeak.

(** X24. On every input whose peak absolute amplitude after the
    convolution exceeds 0.99, [RandomRIR.apply] rescales the signal by 0.98
    divided by that peak, and the rescaled signal has the peak 0.98 exactly.
    The returned waveform is the rescaled signal resampled back to the
    original rate, then padded or cut, and is not normalised again: the
    samples of the resampled signal are returned as they are, and the
    returned samples stay within 0.98 whenever those of the resampled
    signal do.  Samples are exact reals. *)
Theorem rir_normalized_peak_bound :
  forall (G : Type) (src : RandomSource R G) (w : World R) (e : RandomRIR)
         (wav : list R) (sr : nat) (st st1 : State G) (conv : list R) (p : R),
    rir_convolve w e wav sr st = Ok (conv, st1) ->
    np_max (np_abs conv) = Ok p ->
    (0.99 < p)%R ->
    let normalized := map (fun x => (x * (0.98 / p))%R) conv in
    rir_normalize conv = Ok normalized
    /\ np_max (np_abs normalized) = Ok 0.98%R
    /\ Forall (fun x => (Rabs x <= 0.98)%R) normalized
    /\ forall resampled,
         librosa_resample w normalized (rir_rate e) sr = Ok resampled ->
         exists out st',
           RandomRIR_apply w e wav sr st = Ok (out, st')
           /\ firstn (length resampled) out = firstn (length wav) resampled
           /\ (Forall (fun x => (Rabs x <= 0.98)%R) resampled ->
               Forall (fun x => (Rabs x <= 0.98)%R) out).
Proof.
  intros G src w e wav sr st st1 conv p Hconv Hp Hgt normalized.
  destruct (rir_convolve_listed _ _ _ _ _ Hconv) as (paths & Hpaths & Hcat).
  assert (Hnorm : rir_normalize conv = Ok normalized)
    by (apply rir_normalize_rescales; assumption).
  assert (Hpeak : np_max (np_abs normalized) = Ok 0.98%R).
  { subst normalized.
    rewrite (@real_peak_scale conv p (0.98 / p)%R).
    - f_equal. field. lra.
    - apply Rlt_le, Rdiv_lt_0_compat; lra.
    - exact Hp. }
  split; [exact Hnorm|]. split; [exact Hpeak|].
  split; [now apply real_peak_bound|].
  intros resampled Hres.
  rewrite RandomRIR_apply_listed with (paths := paths) by exact Hpaths.
  destruct (Nat.eqb_spec (length paths) 0) as [Hlen|_].
  { apply length_zero_iff_nil in Hlen. contradiction. }
  unfold bind at 1. unfold rir_reverberate, bind. rewrite Hconv.
  unfold lift at 1. rewrite Hnorm. unfold lift. rewrite Hres.
  rewrite rir_reconcile_run. eexists. eexists. split; [reflexivity|].
  destruct (Nat.ltb_spec (length resampled) (length wav)) as [Hlt|Hge].
  - split.
    + rewrite firstn_app, Nat.sub_diag, firstn_all.
      rewrite (firstn_all2 resampled) by lia.
      cbn. apply app_nil_r.
    + intros Hall. apply Forall_app. split; [exact Hall|].
      apply Forall_forall. intros x Hx. apply repeat_spec in Hx. subst x.
      cbn. rewrite Rabs_R0. lra.
  - destruct (Nat.ltb_spec (length wav) (length resampled)) as [Hgt'|Hle].
    + split; [|now apply real_forall_firstn].
      apply firstn_all2. rewrite length_firstn. lia.
    + split; [|trivial].
      replace (length wav) with (length resampled) by lia. reflexivity.
Qed.

Lemma rir_normalized_peak_bound_witness :
  rir_normalize [2; -1]%R = Ok (map (fun x => (x * (0.98 / 2))%R) [2; -1]%R)
  /\ np_max (np_abs (map (fun x => (x * (0.98 / 2))%R) [2; -1]%R))
     = Ok 0.98%R.
Proof.
  destruct (@rir_normalized_peak_bound (Tape R) tape_source
              (unit_world [] 44000) (new_RandomRIR (Some "rir"%string) true)
              [2; -1]%R 44000 (start_state [] [] []) (start_state [] [] [])
              [2; -1]%R 2%R)
    as (Hnorm & Hpeak & _).
  - reflexivity.
  - cbn. f_equal. rewrite Rabs_pos_eq by lra.
    rewrite Rabs_left by lra. apply Rbasic_fun.Rmax_left. lra.
  - lra.
  - split; [exact Hnorm | exact Hpeak].
Defined.

(** *** Deterministic mode *)

Section Determinism.
Context {T : Type} `{Sample T} {G : Type} `{RandomSource T G}.
Variable w : World T.

(** With [deterministic=True], [RandomRIR.apply] reads nothing from the
    random state: its outcome is one [r] for every state, which it leaves
    as it was but for the warning it may log. *)
Lemma RandomRIR_apply_deterministic (e : RandomRIR) (wav : list T) (sr : nat) :
  rir_deterministic e = true ->
  exists r : result (list T * list warning),
    forall st : State G,
      RandomRIR_apply w e wav sr st
      = match r with
        | Ok (out, ws) => Ok (out, mkState (rng st) (log st ++ ws))
        | Raise x => Raise x
        end.
Proof.
  intros Hdet.
  unfold RandomRIR_apply, rir_reverberate, rir_convolve, _sample_rir.
  rewrite Hdet. unfold bind, lift, ret, raise.
  destruct (rir_paths w e) as [paths|x]; [|exists (Raise x); reflexivity].
  destruct (length paths =? 0).
  { exists (Ok (wav, [])). intros [g l]. cbn. now rewrite app_nil_r. }
  destruct (librosa_resample w wav sr (rir_rate e)) as [wav1|x];
    [|exists (Raise x); reflexivity].
  destruct (nth_error paths 0) as [path|];
    [|exists (Raise IndexError); reflexivity].
  destruct (np_load w path) as [rir|x]; [|exists (Raise x); reflexivity].
  destruct (signal_convolve w wav1 rir) as [wav2|x];
    [|exists (Raise x); reflexivity].
  destruct (rir_normalize wav2) as [wav3|x]; [|exists (Raise x); reflexivity].
  destruct (librosa_resample w wav3 (rir_rate e) sr) as [wav4|x];
    [|exists (Raise x); reflexivity].
  eexists (Ok (_, _)). intros st. rewrite rir_reconcile_run. reflexivity.
Qed.
End Determinism.

Section RealDeterminism.
Local Open Scope R_scope.

(** Two mixes of one waveform with one noise agree only when the
    coefficients agree, or when the noise is the waveform. *)
Lemma real_mixed_injective (a1 a2 : R) (wav noise : list R) :
  length noise = length wav ->
  a1 <> a2 ->
  mixed a1 wav noise = mixed a2 wav noise ->
  wav = noise.
Proof.
  intros Hlen Ha. unfold mixed. revert noise Hlen.
  induction wav as [|x wav IH]; intros [|y noise] Hlen Heq;
    try discriminate; [reflexivity|].
  cbn in Heq. injection Heq as Hhead Htail.
  f_equal; [|apply IH; [now injection Hlen | exact Htail]].
  assert (Hprod : (x - y) * (a1 - a2) = 0) by lra.
  apply Rmult_integral in Hprod. destruct Hprod; lra.
Qed.
End RealDeterminism.

(** C2, refuted.  A [RandomWhamNoise] built with [deterministic=True]
    takes the first clip of its catalog and the offset 0, and still draws
    [alpha] with [random.uniform]: over a catalog whose first clip has the
    input's rate and length, two calls on the same waveform from random
    states that yield different coefficients return two different
    waveforms, unless the waveform is itself the energy-matched noise.
    Samples are exact reals. *)
Theorem wham_deterministic_still_random :
  forall (G : Type) (src : RandomSource R G) (w : World R)
         (e : RandomWhamNoise R) (p : Path) (rest : list Path)
         (noise wav : list R) (sr : nat) (st1 st2 : State G),
    wn_deterministic e = true ->
    noise_paths w e = Ok (p :: rest) ->
    librosa_load w p = Ok (noise, sr) ->
    length noise = length wav ->
    let alpha := fun st : State G =>
      (fst (wn_alpha_range e)
       + (snd (wn_alpha_range e) - fst (wn_alpha_range e))
         * fst (next_unit (rng st)))%R in
    let matched :=
      np_scale noise
        (sqrt ((np_sum (np_square wav) + 1e-7)
               / (np_sum (np_square noise) + 1e-7))) in
    alpha st1 <> alpha st2 ->
    wav <> matched ->
    exists out1 st1' out2 st2',
      RandomWhamNoise_apply w e wav sr st1 = Ok (out1, st1')
      /\ RandomWhamNoise_apply w e wav sr st2 = Ok (out2, st2')
      /\ out1 = mixed (alpha st1) wav matched
      /\ out2 = mixed (alpha st2) wav matched
      /\ out1 <> out2.
Proof.
  intros G src w e p rest noise wav sr st1 st2 Hdet Hpaths Hload Hlen
    alpha matched Halpha Hwav.
  assert (Hrun : forall st : State G,
             RandomWhamNoise_apply w e wav sr st
             = Ok (mixed (alpha st) wav matched,
                   with_rng st (snd (next_unit (rng st))))).
  { intros st.
    rewrite RandomWhamNoise_apply_listed with (paths := p :: rest)
      by exact Hpaths.
    cbn [length Nat.eqb]. unfold bind at 1.
    rewrite _sample_noise_listed with (paths := p :: rest) by exact Hpaths.
    cbn [length Nat.eqb nth_error]. rewrite Hdet.
    unfold bind at 1. unfold ret at 1. unfold bind at 1. unfold lift at 1.
    rewrite Hload. unfold ret at 1. rewrite Nat.eqb_refl. cbn [negb].
    unfold bind at 1. unfold ret at 1.
    unfold bind at 1. unfold wham_align.
    rewrite Hlen, Nat.ltb_irrefl. unfold ret at 1.
    rewrite wham_mix_run by exact Hlen. reflexivity. }
  exists (mixed (alpha st1) wav matched),
         (with_rng st1 (snd (next_unit (rng st1)))),
         (mixed (alpha st2) wav matched),
         (with_rng st2 (snd (next_unit (rng st2)))).
  split; [apply Hrun|]. split; [apply Hrun|].
  split; [reflexivity|]. split; [reflexivity|].
  intros Heq. apply Hwav.
  apply (real_mixed_injective (a1 := alpha st1) (a2 := alpha st2));
    [subst matched; now rewrite np_scale_length | exact Halpha | exact Heq].
Qed.

(** The failing input: one clip [[-1]] at 16000 Hz, the waveform [[1]] at
    16000 Hz, once when [random.random()] yields 0 and once when it yields
    0.5. *)
Lemma wham_deterministic_still_random_witness :
  exists out1 st1' out2 st2',
    RandomWhamNoise_apply (unit_world [-1]%R 16000)
      (new_RandomWhamNoise (Some "wham"%string) true) [1]%R 16000
      (start_state [] [0%R] [])
    = Ok (out1, st1')
    /\ RandomWhamNoise_apply (unit_world [-1]%R 16000)
         (new_RandomWhamNoise (Some "wham"%string) true) [1]%R 16000
         (start_state [] [0.5%R] [])
       = Ok (out2, st2')
    /\ out1 <> out2.
Proof.
  destruct (@wham_deterministic_still_random (Tape R) tape_source
              (unit_world [-1]%R 16000)
              (new_RandomWhamNoise (Some "wham"%string) true)
              "wham/0.wav"%string [] [-1]%R [1]%R 16000
              (start_state [] [0%R] []) (start_state [] [0.5%R] [])
              eq_refl eq_refl eq_refl eq_refl)
    as (out1 & st1' & out2 & st2' & Hrun1 & Hrun2 & _ & _ & Hne).
  - cbn. lra.
  - cbn. intros Heq. injection Heq as Heq.
    set (gain := sqrt _) in Heq.
    assert (Hgain : (0 <= gain)%R) by apply sqrt_pos.
    lra.
  - exists out1, st1', out2, st2'.
    split; [exact Hrun1|]. split; [exact Hrun2 | exact Hne].
Defined.

(** The two waveforms of the failing input, in exact arithmetic. *)
Example wham_deterministic_outputs :
  RandomWhamNoise_apply (unit_world [-1]%R 16000)
    (new_RandomWhamNoise (Some "wham"%string) true) [1]%R 16000
    (start_state [] [0%R] [])
  = Ok ([0.6%R], start_state [] [] [])
  /\ RandomWhamNoise_apply (unit_world [-1]%R 16000)
       (new_RandomWhamNoise (Some "wham"%string) true) [1]%R 16000
       (start_state [] [0.5%R] [])
     = Ok ([0.8%R], start_state [] [] []).
Proof.
  split; cbn;
    match goal with
    | |- context [sqrt ?x] => replace x with 1%R by (field; lra)
    end;
    rewrite sqrt_1; do 3 f_equal; lra.
Qed.

(** *** The Distorter pipeline *)

(** C9. A [Distorter] built with [training=True] and [mode="enhancer"]
    holds one effect: a [Choice] between the [Permutation] over the enabled
    effects and an empty [Chain], with the weights 0.8 and 0.2. *)
Theorem distorter_training_enhancer :
  forall (T : Type) (ops : Sample T) (hp : hparams.HParams),
    Distorter hp true "enhancer"
    = Chain [Choice [Permutation (spec_enabled_effects hp); Chain []]
                    (Some [c_0_8; c_0_2])].
Proof.
  intros T ops hp. unfold Distorter, spec_enabled_effects, append_if.
  unfold new_RandomRIR, new_RandomGaussianNoise, new_RandomWhamNoise.
  cbn [String.eqb Ascii.eqb Bool.eqb].
  destruct (hparams.enable_rir hp), (hparams.enable_reverb hp),
    (hparams.enable_gaussian_noise hp), (hparams.enable_wham_noise hp),
    (hparams.enable_overdrive hp), (hparams.enable_equalizer hp),
    (hparams.enable_filters hp); reflexivity.
Qed.

(** The weights in binary64, and the pipeline when every flag is set. *)
Example distorter_all_enabled :
  Distorter
    {| hparams.enable_rir := true; hparams.rir_dir := Some "rir"%string;
       hparams.enable_reverb := true;
       hparams.enable_gaussian_noise := true;
       hparams.enable_wham_noise := true;
       hparams.wham_noise_dir := Some "wham"%string;
       hparams.enable_overdrive := true;
       hparams.enable_equalizer := true;
       hparams.enable_filters := true |}
    true "enhancer"
  = Chain
      [Choice
         [Permutation
            [ERandomRIR (mkRandomRIR (Some "rir"%string) 44000 ".npy" false);
             RandomReverb false;
             ERandomGaussianNoise (mkRandomGaussianNoise (0.8, 1)%float);
             ERandomWhamNoise
               (mkRandomWhamNoise (Some "wham"%string) false (0.8, 1)%float);
             RandomOverdrive;
             RandomEqualizer;
             Choice [RandomLowpassDistorter; RandomBandpassDistorter] None];
          Chain []]
         (Some [0.8; 0.2]%float)].
Proof. reflexivity. Qed.

(** The other two pipelines. *)
Lemma distorter_other_modes (T : Type) (ops : Sample T)
    (hp : hparams.HParams) :
  Distorter hp true "denoiser" = Chain [Permutation (spec_enabled_effects hp)]
  /\ forall mode,
       Distorter hp false mode
       = Chain ((if hparams.enable_rir hp
                 then [ERandomRIR
                         (mkRandomRIR (hparams.rir_dir hp) 44000 ".npy" true)]
                 else [])
                ++ (if hparams.enable_reverb hp then [RandomReverb true]
                    else [])).
Proof.
  unfold Distorter, spec_enabled_effects, append_if.
  unfold new_RandomRIR, new_RandomGaussianNoise, new_RandomWhamNoise.
  cbn [String.eqb Ascii.eqb Bool.eqb].
  split; [|intros mode];
    destruct (hparams.enable_rir hp), (hparams.enable_reverb hp),
      (hparams.enable_gaussian_noise hp), (hparams.enable_wham_noise hp),
      (hparams.enable_overdrive hp), (hparams.enable_equalizer hp),
      (hparams.enable_filters hp); reflexivity.
Qed.

(** ** Further properties of custom.py *)

(** *** How RandomWhamNoise aligns the noise *)

Section Alignment.
Context {T : Type} `{Sample T} {G : Type} `{RandomSource T G}.

Lemma firstn_zeros (k n : nat) :
  k <= n -> firstn k (@np_zeros T _ n) = repeat s_zero k.
Proof.
  intros Hk. unfold np_zeros.
  replace n with (k + (n - k)) by lia.
  rewrite repeat_app, firstn_app, repeat_length, Nat.sub_diag.
  rewrite firstn_all2 by (rewrite repeat_length; lia).
  cbn. apply app_nil_r.
Qed.

Lemma skipn_zeros (k n : nat) :
  k <= n -> skipn k (@np_zeros T _ n) = repeat s_zero (n - k).
Proof.
  intros Hk. unfold np_zeros.
  replace n with (k + (n - k)) at 1 by lia.
  rewrite repeat_app, skipn_app, repeat_length, Nat.sub_diag.
  rewrite skipn_all2 by (rewrite repeat_length; lia).
  reflexivity.
Qed.

(** The offset that lines 117 and 122 choose. *)
Lemma wham_start_bounds (e : RandomWhamNoise T) (room start : nat)
    (st st' : State G) :
  (if wn_deterministic e then ret 0 else random_randint 0 room) st
  = Ok (start, st') ->
  start <= room /\ (wn_deterministic e = true -> start = 0 /\ st' = st).
Proof.
  destruct (wn_deterministic e).
  - intros Hrun. apply ret_Ok in Hrun. injection Hrun as <- <-.
    split; [lia | now split].
  - intros Hrun. apply random_randint_bounds in Hrun.
    split; [lia | discriminate].
Qed.
End Alignment.

(** X1. A noise clip shorter than the input is embedded whole, at one
    offset, in a buffer of zeros of the input's length; with
    [deterministic=True] the offset is 0 and nothing is drawn. *)
Theorem wham_align_embeds_short_noise :
  forall (T : Type) (ops : Sample T) (G : Type) (src : RandomSource T G)
         (e : RandomWhamNoise T) (wav noise out : list T)
         (st st' : State G),
    length noise < length wav ->
    wham_align e wav noise st = Ok (out, st') ->
    exists start,
      start + length noise <= length wav
      /\ out = repeat s_zero start ++ noise
               ++ repeat s_zero (length wav - (start + length noise))
      /\ (wn_deterministic e = true -> start = 0 /\ st' = st).
Proof.
  intros T ops G src e wav noise out st st' Hshort. unfold wham_align.
  destruct (Nat.ltb_spec (length noise) (length wav)) as [_|Hge]; [|lia].
  intros Hrun. inv_bind Hrun. inv_lift Hrun. subst st'.
  apply wham_start_bounds in Hrun0. destruct Hrun0 as [Hroom Hdet].
  exists a. split; [lia|]. split; [|exact Hdet].
  unfold np_set_slice in Hval. rewrite np_zeros_length in Hval.
  replace (Nat.min a (length wav)) with a in Hval by lia.
  replace (Nat.max a (Nat.min (a + length noise) (length wav)))
    with (a + length noise) in Hval by lia.
  replace (a + length noise - a) with (length noise) in Hval by lia.
  rewrite Nat.eqb_refl in Hval. injection Hval as <-.
  rewrite firstn_zeros, skipn_zeros by lia. reflexivity.
Qed.

Lemma wham_align_embeds_short_noise_witness :
  exists start,
    start + 3 <= 10
    /\ [0; 0; -1; 0.5; 0.25; 0; 0; 0; 0; 0]%float
       = repeat 0%float start ++ [-1; 0.5; 0.25]%float
         ++ repeat 0%float (10 - (start + 3)).
Proof.
  destruct (@wham_align_embeds_short_noise float float_ops (Tape float)
              tape_source (new_RandomWhamNoise (Some "wham"%string) false)
              (repeat 1%float 10) [-1; 0.5; 0.25]%float
              [0; 0; -1; 0.5; 0.25; 0; 0; 0; 0; 0]%float
              (start_state [10] [] []) (start_state [] [] []))
    as (start & Hfit & Hout & _).
  - cbn. lia.
  - vm_compute. reflexivity.
  - exists start. split; [exact Hfit | exact Hout].
Defined.

(** X2. A noise clip longer than the input is cut to one contiguous window
    of the input's length; with [deterministic=True] the window is the
    beginning of the clip and nothing is drawn.  A clip of the input's
    length is used as it is. *)
Theorem wham_align_crops_long_noise :
  forall (T : Type) (ops : Sample T) (G : Type) (src : RandomSource T G)
         (e : RandomWhamNoise T) (wav noise out : list T)
         (st st' : State G),
    length wav <= length noise ->
    wham_align e wav noise st = Ok (out, st') ->
    exists before after,
      noise = before ++ out ++ after
      /\ length out = length wav
      /\ (wn_deterministic e = true -> before = [] /\ st' = st)
      /\ (length noise = length wav -> out = noise /\ st' = st).
Proof.
  intros T ops G src e wav noise out st st' Hlong. unfold wham_align.
  destruct (Nat.ltb_spec (length noise) (length wav)) as [Hlt|_]; [lia|].
  destruct (Nat.ltb_spec (length wav) (length noise)) as [Hgt|Hle].
  - intros Hrun. inv_bind Hrun. apply ret_Ok in Hrun.
    injection Hrun as <- <-.
    apply wham_start_bounds in Hrun0. destruct Hrun0 as [Hroom Hdet].
    unfold np_slice. replace (a + length wav - a) with (length wav) by lia.
    exists (firstn a noise), (skipn (length wav) (skipn a noise)).
    split; [now rewrite firstn_skipn, firstn_skipn|].
    split; [rewrite length_firstn, length_skipn; lia|].
    split; [|lia].
    intros Hd. destruct (Hdet Hd) as [-> ->]. now split.
  - intros Hrun. apply ret_Ok in Hrun. injection Hrun as <- <-.
    exists [], []. rewrite app_nil_r. cbn.
    split; [reflexivity|]. split; [lia|]. split; intros _; now split.
Qed.

Lemma wham_align_crops_long_noise_witness :
  exists before after,
    [1; 2; 3; 4; 5]%float = before ++ [3; 4]%float ++ after.
Proof.
  destruct (@wham_align_crops_long_noise float float_ops (Tape float)
              tape_source (new_RandomWhamNoise (Some "wham"%string) false)
              [0; 0]%float [1; 2; 3; 4; 5]%float [3; 4]%float
              (start_state [6] [] []) (start_state [] [] []))
    as (before & after & Hsplit & _).
  - cbn. lia.
  - vm_compute. reflexivity.
  - exists before, after. exact Hsplit.
Defined.

(** *** The gain of the peak normalisation *)

(** X3. Whenever lines 57-59 return, they have applied one gain [c] with
    [0 < c <= 1] to every sample (so no sample grows and the relative
    dynamics are kept), and no sample of the result exceeds 0.99 in
    absolute value.  Samples are exact reals. *)
Theorem rir_normalize_is_uniform_gain :
  forall (wav out : list R),
    rir_normalize wav = Ok out ->
    exists c : R,
      (0 < c <= 1)%R
      /\ out = map (fun x => (x * c)%R) wav
      /\ Forall (fun y => (Rabs y <= 0.99)%R) out.
Proof.
  intros wav out Hrun.
  destruct (np_max (np_abs wav)) as [p|x] eqn:Hp.
  2:{ unfold rir_normalize in Hrun. rewrite Hp in Hrun. discriminate. }
  destruct (Rlt_dec 0.99 p) as [Hgt|Hle].
  - rewrite (rir_normalize_rescales _ Hp Hgt) in Hrun. injection Hrun as <-.
    exists (0.98 / p)%R. split; [|split; [reflexivity|]].
    + split.
      * apply Rdiv_lt_0_compat; lra.
      * apply Rmult_le_reg_r with p; [lra|].
        unfold Rdiv. rewrite Rmult_assoc, Rinv_l by lra. lra.
    + assert (Hpeak : np_max (np_abs (map (fun x => (x * (0.98 / p))%R) wav))
                      = Ok (p * (0.98 / p))%R).
      { apply real_peak_scale; [|exact Hp].
        apply Rlt_le, Rdiv_lt_0_compat; lra. }
      apply real_peak_bound in Hpeak.
      eapply Forall_impl; [|exact Hpeak].
      intros y Hy. cbv beta in Hy.
      replace (p * (0.98 / p))%R with 0.98%R in Hy by (field; lra). lra.
  - rewrite (rir_normalize_keeps _ Hp) in Hrun by lra. injection Hrun as <-.
    exists 1%R. split; [lra|]. split.
    + rewrite <- (map_id wav) at 1. apply map_ext. intros x. lra.
    + apply real_peak_bound in Hp.
      eapply Forall_impl; [|exact Hp]. intros y Hy. cbv beta in Hy. lra.
Qed.

Lemma rir_normalize_is_uniform_gain_witness :
  exists c : R,
    (0 < c <= 1)%R
    /\ map (fun x => (x * (0.98 / 2))%R) [2; -1]%R
       = map (fun x => (x * c)%R) [2; -1]%R.
Proof.
  destruct (@rir_normalize_is_uniform_gain [2; -1]%R
              (map (fun x => (x * (0.98 / 2))%R) [2; -1]%R))
    as (c & Hc & Hout & _).
  - apply rir_normalize_rescales; [|lra].
    cbn. f_equal. rewrite Rabs_pos_eq by lra. rewrite Rabs_left by lra.
    apply Rbasic_fun.Rmax_left. lra.
  - exists c. split; [exact Hc | exact Hout].
Defined.

(** *** What the effects write to the log *)

Section LogFrame.
Context {T : Type} `{Sample T} {G : Type} `{RandomSource T G}.

(** A computation that returns with the log it started with. *)
Definition keeps_log {A : Type} (c : M G A) : Prop :=
  forall st a st', c st = Ok (a, st') -> log st' = log st.

Lemma keeps_log_ret {A} (a : A) : keeps_log (ret a).
Proof. intros st b st' Hrun. apply ret_Ok in Hrun. now injection Hrun as _ <-. Qed.

Lemma keeps_log_raise {A} (e : exn) : keeps_log (@raise G A e).
Proof. intros st b st' Hrun. discriminate. Qed.

Lemma keeps_log_lift {A} (r : result A) : keeps_log (lift r).
Proof.
  intros st b st' Hrun. apply lift_Ok in Hrun. cbn in Hrun.
  destruct Hrun as [_ ->]. reflexivity.
Qed.

Lemma keeps_log_bind {A B} (c : M G A) (k : A -> M G B) :
  keeps_log c -> (forall a, keeps_log (k a)) -> keeps_log (bind c k).
Proof.
  intros Hc Hk st b st' Hrun. inv_bind Hrun.
  apply Hk in Hrun. apply Hc in Hrun0. congruence.
Qed.

Lemma keeps_log_randbelow n : keeps_log (randbelow n).
Proof.
  intros st k st'. unfold randbelow.
  destruct (next_index (rng st)) as [i g]. intros Hrun.
  now injection Hrun as _ <-.
Qed.

Lemma keeps_log_random_choice {A} (seq : list A) :
  keeps_log (random_choice seq).
Proof.
  destruct seq as [|x seq]; [apply keeps_log_raise|].
  unfold random_choice. apply keeps_log_bind; [apply keeps_log_randbelow|].
  intros i. destruct (nth_error (x :: seq) i);
    [apply keeps_log_ret | apply keeps_log_raise].
Qed.

Lemma keeps_log_random_randint a b : keeps_log (random_randint a b).
Proof.
  unfold random_randint. destruct (b <? a); [apply keeps_log_raise|].
  apply keeps_log_bind; [apply keeps_log_randbelow|].
  intros k. apply keeps_log_ret.
Qed.

Lemma keeps_log_random_uniform (a b : T) : keeps_log (random_uniform a b).
Proof.
  intros st x st'. unfold random_uniform.
  destruct (next_unit (rng st)) as [u g]. intros Hrun.
  now injection Hrun as _ <-.
Qed.

Lemma keeps_log_randn n : keeps_log (np_random_randn n).
Proof.
  intros st x st'. unfold np_random_randn.
  destruct (randn_draw n (rng st)) as [noise g]. intros Hrun.
  now injection Hrun as _ <-.
Qed.

Variable w : World T.

Lemma keeps_log_sample_rir (e : RandomRIR) : keeps_log (_sample_rir w e).
Proof.
  unfold _sample_rir. apply keeps_log_bind; [apply keeps_log_lift|].
  intros paths. destruct (length paths =? 0); [apply keeps_log_ret|].
  apply keeps_log_bind.
  - destruct (rir_deterministic e); [|apply keeps_log_random_choice].
    destruct (nth_error paths 0);
      [apply keeps_log_ret | apply keeps_log_raise].
  - intros p. apply keeps_log_bind; [apply keeps_log_lift|].
    intros rir. apply keeps_log_ret.
Qed.

Lemma keeps_log_rir_reverberate (e : RandomRIR) (wav : list T) (sr : nat) :
  keeps_log (rir_reverberate w e wav sr).
Proof.
  unfold rir_reverberate. apply keeps_log_bind.
  - unfold rir_convolve.
    apply keeps_log_bind; [apply keeps_log_lift|]. intros wav1.
    apply keeps_log_bind; [apply keeps_log_sample_rir|]. intros [rir|];
      [apply keeps_log_lift | apply keeps_log_raise].
  - intros conv. apply keeps_log_bind; [apply keeps_log_lift|].
    intros normalized. apply keeps_log_lift.
Qed.

Lemma keeps_log_gaussian (e : RandomGaussianNoise T) (wav : list T)
    (sr : nat) :
  keeps_log (RandomGaussianNoise_apply e wav sr).
Proof.
  unfold RandomGaussianNoise_apply.
  apply keeps_log_bind; [apply keeps_log_randn|]. intros noise.
  apply keeps_log_bind; [apply keeps_log_random_uniform|]. intros alpha.
  apply keeps_log_lift.
Qed.

Lemma keeps_log_wham (e : RandomWhamNoise T) (wav : list T) (sr : nat) :
  keeps_log (RandomWhamNoise_apply w e wav sr).
Proof.
  unfold RandomWhamNoise_apply.
  apply keeps_log_bind; [apply keeps_log_lift|]. intros paths.
  destruct (length paths =? 0); [apply keeps_log_ret|].
  apply keeps_log_bind.
  { unfold _sample_noise.
    apply keeps_log_bind; [apply keeps_log_lift|]. intros paths'.
    destruct (length paths' =? 0); [apply keeps_log_ret|].
    apply keeps_log_bind.
    - destruct (wn_deterministic e); [|apply keeps_log_random_choice].
      destruct (nth_error paths' 0);
        [apply keeps_log_ret | apply keeps_log_raise].
    - intros p. apply keeps_log_bind; [apply keeps_log_lift|].
      intros loaded. apply keeps_log_ret. }
  intros [[noise nsr]|]; [|apply keeps_log_ret].
  apply keeps_log_bind.
  { destruct (negb (nsr =? sr)); [apply keeps_log_lift | apply keeps_log_ret]. }
  intros noise1. apply keeps_log_bind.
  { unfold wham_align.
    destruct (length noise1 <? length wav).
    - apply keeps_log_bind.
      + destruct (wn_deterministic e);
          [apply keeps_log_ret | apply keeps_log_random_randint].
      + intros start. apply keeps_log_lift.
    - destruct (length wav <? length noise1); [|apply keeps_log_ret].
      apply keeps_log_bind.
      + destruct (wn_deterministic e);
          [apply keeps_log_ret | apply keeps_log_random_randint].
      + intros start. apply keeps_log_ret. }
  intros noise2. unfold wham_mix.
  apply keeps_log_bind; [apply keeps_log_random_uniform|]. intros alpha.
  apply keeps_log_lift.
Qed.
End LogFrame.

(** X4. Of the three effects only [RandomRIR] logs, and at most one
    warning per call: a returning [apply] leaves the earlier log entries in
    place; [RandomGaussianNoise] and [RandomWhamNoise] add nothing,
    [RandomRIR] adds nothing or one length-mismatch warning that names the
    input's length and a length more than 10 samples away from it. *)
Theorem apply_log_frame :
  forall (T : Type) (ops : Sample T) (G : Type) (src : RandomSource T G)
         (w : World T) (e : CustomEffect T) (wav : list T) (sr : nat)
         (st : State G) (out : list T) (st' : State G),
    apply w e wav sr st = Ok (out, st') ->
    match e with
    | CustomRIR _ =>
        log st' = log st
        \/ exists m,
             (10 < Z.abs (Z.of_nat (length wav) - Z.of_nat m))%Z
             /\ log st' = log st ++ [LengthMismatch (length wav) m]
    | _ => log st' = log st
    end.
Proof.
  intros T ops G src w [e|e|e] wav sr st out st' Hrun; cbn in Hrun.
  - unfold RandomRIR_apply in Hrun. inv_bind Hrun.
    apply keeps_log_lift in Hrun0. rewrite <- Hrun0.
    destruct (length a =? 0).
    { left. apply ret_Ok in Hrun. now injection Hrun as _ <-. }
    inv_bind Hrun. apply keeps_log_rir_reverberate in Hrun1.
    rewrite rir_reconcile_run in Hrun. injection Hrun as _ <-.
    cbn [log]. rewrite Hrun1.
    destruct (Z.ltb_spec 10
                (Z.abs (Z.of_nat (length wav) - Z.of_nat (length a0))))
      as [Hfar|Hnear].
    + right. exists (length a0). split; [exact Hfar | reflexivity].
    + left. apply app_nil_r.
  - eapply keeps_log_gaussian. exact Hrun.
  - eapply keeps_log_wham. exact Hrun.
Qed.

Lemma apply_log_frame_witness :
  [LengthMismatch 40 67] = []
  \/ exists m,
       (10 < Z.abs (40 - Z.of_nat m))%Z
       /\ [LengthMismatch 40 67] = [] ++ [LengthMismatch 40 m].
Proof.
  apply (@apply_log_frame float float_ops (Tape float) tape_source
           (demo_world [1; 0]%float [] 8000)
           (CustomRIR (mkRandomRIR (Some "rir"%string) 3 ".npy" true))
           (repeat 0.5%float 40) 100 (start_state [] [] [])
           (repeat 0.5%float 40)
           (mkState (mkTape [] [] []) [LengthMismatch 40 67])).
  vm_compute. reflexivity.
Defined.

(** *** Which asset is loaded *)

Section Sampling.
Context {T : Type} `{Sample T} {G : Type} `{RandomSource T G}.
Variable w : World T.

(** The path that both samplers choose from a non-empty catalog. *)
Definition choose_path (deterministic : bool) (paths : list Path)
  : M G Path :=
  if deterministic
  then match nth_error paths 0 with
       | Some p => ret p
       | None => raise IndexError
       end
  else random_choice paths.

Lemma choose_path_member (deterministic : bool) (paths : list Path)
    (st : State G) :
  paths <> [] ->
  exists p st',
    choose_path deterministic paths st = Ok (p, st')
    /\ In p paths
    /\ (deterministic = true -> nth_error paths 0 = Some p /\ st' = st).
Proof.
  intros Hne. unfold choose_path. destruct deterministic.
  - destruct paths as [|p ps]; [contradiction|].
    exists p, st. split; [reflexivity|]. split; [now left | now split].
  - destruct (random_choice_Ok st Hne) as (p & st' & Hrun & Hin).
    exists p, st'. split; [exact Hrun|]. split; [exact Hin | discriminate].
Qed.
End Sampling.

(** X5. [_sample_rir] and [_sample_noise] raise what the listing of the
    catalog raises; on a listed catalog they return [None] exactly when it
    is empty, and otherwise load one path of the catalog (the first one
    with [deterministic=True], leaving the random state alone) and return
    what the load returns.  An exception comes from the listing or from
    the load: the samplers raise no [IndexError] of their own. *)
Theorem samplers_load_a_catalog_member :
  forall (T : Type) (ops : Sample T) (G : Type) (src : RandomSource T G)
         (w : World T) (rir : RandomRIR) (wham : RandomWhamNoise T)
         (st : State G),
    match rir_paths w rir with
    | Raise x => _sample_rir w rir st = Raise x
    | Ok [] => _sample_rir w rir st = Ok (None, st)
    | Ok paths =>
        exists p st',
          In p paths
          /\ (rir_deterministic rir = true ->
              nth_error paths 0 = Some p /\ st' = st)
          /\ _sample_rir w rir st
             = match np_load w p with
               | Ok kernel => Ok (Some kernel, st')
               | Raise x => Raise x
               end
    end
    /\ match noise_paths w wham with
       | Raise x => _sample_noise w wham st = Raise x
       | Ok [] => _sample_noise w wham st = Ok (None, st)
       | Ok paths =>
           exists p st',
             In p paths
             /\ (wn_deterministic wham = true ->
                 nth_error paths 0 = Some p /\ st' = st)
             /\ _sample_noise w wham st
                = match librosa_load w p with
                  | Ok loaded => Ok (Some loaded, st')
                  | Raise x => Raise x
                  end
       end.
Proof.
  intros T ops G src w rir wham st. split.
  - destruct (rir_paths w rir) as [[|p0 ps]|x] eqn:Hpaths.
    + rewrite _sample_rir_listed with (paths := []) by exact Hpaths.
      reflexivity.
    + rewrite _sample_rir_listed with (paths := p0 :: ps) by exact Hpaths.
      cbn [length Nat.eqb].
      destruct (@choose_path_member T G src (rir_deterministic rir)
                  (p0 :: ps) st) as (p & st' & Hrun & Hin & Hdet);
        [discriminate|].
      exists p, st'. split; [exact Hin|]. split; [exact Hdet|].
      unfold choose_path in Hrun. unfold bind at 1. rewrite Hrun.
      unfold bind, lift, ret. destruct (np_load w p); reflexivity.
    + now apply _sample_rir_unlisted.
  - destruct (noise_paths w wham) as [[|p0 ps]|x] eqn:Hpaths.
    + rewrite _sample_noise_listed with (paths := []) by exact Hpaths.
      reflexivity.
    + rewrite _sample_noise_listed with (paths := p0 :: ps) by exact Hpaths.
      cbn [length Nat.eqb].
      destruct (@choose_path_member T G src (wn_deterministic wham)
                  (p0 :: ps) st) as (p & st' & Hrun & Hin & Hdet);
        [discriminate|].
      exists p, st'. split; [exact Hin|]. split; [exact Hdet|].
      unfold choose_path in Hrun. unfold bind at 1. rewrite Hrun.
      unfold bind, lift, ret. destruct (librosa_load w p); reflexivity.
    + now apply _sample_noise_unlisted.
Qed.

(** *** The energy of a mix *)


Section RealMixEnergy.
Local Open Scope R_scope.

(** The inner product of two arrays. *)
Definition real_dot (a b : list R) : R :=
  np_sum (map (fun p => fst p * snd p) (combine a b)).

Lemma real_dot_cons (x y : R) (a b : list R) :
  real_dot (x :: a) (y :: b) = x * y + real_dot a b.
Proof.
  unfold real_dot, np_sum. cbn. rewrite real_sum_from. lra.
Qed.

Lemma real_dot_bound (a b : list R) :
  length a = length b ->
  2 * real_dot a b <= np_sum (np_square a) + np_sum (np_square b).
Proof.
  revert b. induction a as [|x a IH]; intros [|y b] Hlen; try discriminate.
  - unfold real_dot. cbn. lra.
  - injection Hlen as Hlen. specialize (IH b Hlen).
    rewrite real_dot_cons, !real_energy_cons.
    pose proof (Rle_0_sqr (x - y)) as Hsq. unfold Rsqr in Hsq. lra.
Qed.

Lemma real_mixed_energy (a b : list R) (c : R) :
  length a = length b ->
  np_sum (np_square (mixed c a b))
  = c * c * np_sum (np_square a)
    + 2 * c * (1 - c) * real_dot a b
    + (1 - c) * (1 - c) * np_sum (np_square b).
Proof.
  revert b. induction a as [|x a IH]; intros [|y b] Hlen; try discriminate.
  - unfold real_dot, mixed. cbn. lra.
  - injection Hlen as Hlen. specialize (IH b Hlen).
    unfold mixed in *. cbn [combine map fst snd].
    rewrite real_dot_cons, !real_energy_cons, IH. cbn. lra.
Qed.

(** A mix with a coefficient in [0, 1]. *)
Lemma real_mixed_energy_bound (a b : list R) (c : R) :
  length a = length b ->
  0 <= c <= 1 ->
  np_sum (np_square (mixed c a b))
  <= c * np_sum (np_square a) + (1 - c) * np_sum (np_square b).
Proof.
  intros Hlen Hc. rewrite real_mixed_energy by exact Hlen.
  pose proof (real_dot_bound a b Hlen) as Hdot.
  pose proof (real_energy_nonneg a). pose proof (real_energy_nonneg b).
  assert (Hcd : 0 <= c * (1 - c)) by nra.
  assert (Hprod : 0 <= c * (1 - c)
                       * (np_sum (np_square a) + np_sum (np_square b)
                          - 2 * real_dot a b))
    by (apply Rmult_le_pos; lra).
  lra.
Qed.

Lemma real_alpha_in_unit (lo hi u : R) :
  0 <= lo -> lo <= hi -> hi <= 1 -> 0 <= u <= 1 ->
  0 <= lo + (hi - lo) * u <= 1.
Proof. intros Hlo Hle Hhi Hu. nra. Qed.

(** The energy of a noise scaled by [sqrt(target / divisor)]. *)
Lemma real_scaled_energy (noise : list R) (target d : R) :
  0 <= target -> 0 < d ->
  np_sum (np_square (np_scale noise (sqrt (target / d))))
  = target * (np_sum (np_square noise) / d).
Proof.
  intros Htarget Hd. rewrite real_energy_scale, sqrt_sqrt.
  - field. lra.
  - apply Rmult_le_pos; [exact Htarget|].
    apply Rlt_le, Rinv_0_lt_compat. exact Hd.
Qed.
End RealMixEnergy.

(** X6. [RandomGaussianNoise.apply] never adds energy: when the drawn
    noise has energy, [random()] draws from [0, 1] and the alpha range lies
    in [0, 1], the energy (sum of squared samples) of the returned waveform
    is at most the energy of the input.  Samples are exact reals. *)
Theorem gaussian_never_adds_energy :
  forall (G : Type) (src : RandomSource R G) (e : RandomGaussianNoise R)
         (wav : list R) (sr : nat) (st : State G) (out : list R)
         (st' : State G),
    np_sum (np_square (fst (randn_draw (length wav) (rng st)))) <> 0%R ->
    (forall g : G, (0 <= fst (next_unit g) <= 1)%R) ->
    (0 <= fst (gn_alpha_range e))%R ->
    (fst (gn_alpha_range e) <= snd (gn_alpha_range e))%R ->
    (snd (gn_alpha_range e) <= 1)%R ->
    RandomGaussianNoise_apply e wav sr st = Ok (out, st') ->
    (np_sum (np_square out) <= np_sum (np_square wav))%R.
Proof.
  intros G src e wav sr st out st' Hdrawn Hunit Hlo Hle Hhi Hrun.
  rewrite gaussian_apply_run in Hrun. cbv zeta in Hrun.
  injection Hrun as <- _.
  pose proof (randn_draw_length (length wav) (rng st)) as Hlen.
  set (noise0 := fst (randn_draw (length wav) (rng st))) in *.
  set (u := fst (next_unit (snd (randn_draw (length wav) (rng st))))).
  assert (Hu : (0 <= u <= 1)%R) by apply Hunit.
  pose proof (real_alpha_in_unit Hlo Hle Hhi Hu) as Halpha.
  pose proof (real_energy_nonneg wav) as Hwav.
  pose proof (real_energy_nonneg noise0) as Hnoise.
  unfold quotient, gaussian_division. cbn [dividend divisor].
  cbn [s_add s_sub s_mul s_div s_sqrt s_one real_ops].
  set (alpha := (fst (gn_alpha_range e)
                 + (snd (gn_alpha_range e) - fst (gn_alpha_range e)) * u)%R)
    in *.
  set (scaled := np_scale noise0
                   (sqrt (np_sum (np_square wav) / np_sum (np_square noise0)))).
  assert (Hscaled : (np_sum (np_square scaled) <= np_sum (np_square wav))%R).
  { subst scaled. rewrite real_energy_matched by assumption. lra. }
  assert (Hbound := @real_mixed_energy_bound wav scaled alpha).
  cbn [s_add s_sub s_mul s_one real_ops] in Hbound.
  specialize (Hbound ltac:(subst scaled; now rewrite np_scale_length) Halpha).
  nra.
Qed.

Lemma gaussian_never_adds_energy_witness :
  exists out,
    @RandomGaussianNoise_apply R real_ops unit (steady_source 0 0.5%R 1%R)
      new_RandomGaussianNoise [1; -1]%R 16000 (mkState tt [])
    = Ok (out, mkState tt [])
    /\ (np_sum (np_square out) <= np_sum (np_square [1; -1]%R))%R.
Proof.
  eexists. split.
  - cbn. reflexivity.
  - apply (@gaussian_never_adds_energy unit (steady_source 0 0.5%R 1%R)
             new_RandomGaussianNoise [1; -1]%R 16000 (mkState tt []) _
             (mkState tt [])).
    + cbn. lra.
    + intros g. cbn. lra.
    + cbn. lra.
    + cbn. lra.
    + cbn. lra.
    + cbn. reflexivity.
Defined.

(** X7. [RandomWhamNoise.apply] adds at most [1e-7] of energy: when
    [random()] draws from [0, 1] and the alpha range lies in [0, 1], the
    energy of the returned waveform is at most the energy of the input plus
    [1e-7]; a silent input comes back with an energy of at most [1e-7].
    Samples are exact reals. *)
Theorem wham_adds_at_most_epsilon :
  forall (G : Type) (src : RandomSource R G) (w : World R)
         (e : RandomWhamNoise R) (wav : list R) (sr : nat) (st : State G)
         (out : list R) (st' : State G),
    (forall g : G, (0 <= fst (next_unit g) <= 1)%R) ->
    (0 <= fst (wn_alpha_range e))%R ->
    (fst (wn_alpha_range e) <= snd (wn_alpha_range e))%R ->
    (snd (wn_alpha_range e) <= 1)%R ->
    RandomWhamNoise_apply w e wav sr st = Ok (out, st') ->
    (np_sum (np_square out) <= np_sum (np_square wav) + 1e-7)%R.
Proof.
  intros G src w e wav sr st out st' Hunit Hlo Hle Hhi Hrun.
  pose proof (real_energy_nonneg wav) as Hwav.
  apply RandomWhamNoise_apply_mixes in Hrun.
  destruct Hrun as [(_ & -> & _)|(aligned & st2 & Hrun2 & Hrun)]; [lra|].
  rewrite wham_mix_run in Hrun by exact Hrun2. injection Hrun as <- _.
  set (u := fst (next_unit (rng st2))).
  assert (Hu : (0 <= u <= 1)%R) by apply Hunit.
  pose proof (real_alpha_in_unit Hlo Hle Hhi Hu) as Halpha.
  pose proof (real_energy_nonneg aligned) as Hnoise.
  unfold quotient, wham_division. cbn [dividend divisor].
  cbn [s_add s_sub s_mul s_div s_sqrt s_one c_1e_7 real_ops].
  set (alpha := (fst (wn_alpha_range e)
                 + (snd (wn_alpha_range e) - fst (wn_alpha_range e)) * u)%R)
    in *.
  set (scaled := np_scale aligned
                   (sqrt ((np_sum (np_square wav) + 1e-7)
                          / (np_sum (np_square aligned) + 1e-7)))).
  assert (Hscaled : (np_sum (np_square scaled)
                     <= np_sum (np_square wav) + 1e-7)%R).
  { subst scaled. rewrite real_scaled_energy by lra.
    assert (Hratio : (np_sum (np_square aligned)
                      / (np_sum (np_square aligned) + 1e-7) <= 1)%R).
    { apply Rmult_le_reg_r with (np_sum (np_square aligned) + 1e-7)%R;
        [lra|].
      unfold Rdiv. rewrite Rmult_assoc, Rinv_l by lra. lra. }
    assert (Hratio0 : (0 <= np_sum (np_square aligned)
                            / (np_sum (np_square aligned) + 1e-7))%R).
    { apply Rmult_le_pos; [lra|].
      apply Rlt_le, Rinv_0_lt_compat. lra. }
    nra. }
  assert (Hbound := @real_mixed_energy_bound wav scaled alpha).
  cbn [s_add s_sub s_mul s_one real_ops] in Hbound.
  specialize (Hbound ltac:(subst scaled; now rewrite np_scale_length) Halpha).
  nra.
Qed.

Lemma wham_adds_at_most_epsilon_witness :
  exists out,
    @RandomWhamNoise_apply R real_ops unit (steady_source 0 0.5%R 1%R)
      (unit_world [3; 4]%R 16000)
      (new_RandomWhamNoise (Some "wham"%string) false) [0; 0]%R 16000
      (mkState tt [])
    = Ok (out, mkState tt [])
    /\ (np_sum (np_square out) <= np_sum (np_square [0; 0]%R) + 1e-7)%R.
Proof.
  eexists. split.
  - cbn. reflexivity.
  - apply (@wham_adds_at_most_epsilon unit (steady_source 0 0.5%R 1%R)
             (unit_world [3; 4]%R 16000)
             (new_RandomWhamNoise (Some "wham"%string) false) [0; 0]%R
             16000 (mkState tt []) _ (mkState tt [])).
    + intros g. cbn. lra.
    + cbn. lra.
    + cbn. lra.
    + cbn. lra.
    + cbn. reflexivity.
Defined.

(** *** Where exceptions come from *)

(** X8. [RandomWhamNoise.apply] raises nothing of its own: an exception
    that leaves it was raised by the listing of the catalog, by
    [librosa.load] on a path of the catalog, or by [librosa.resample] on a
    loaded clip whose rate differs from the input's; the offsets, the slice
    assignment and the mixing never fail. *)
Theorem wham_raises_only_what_librosa_raises :
  forall (T : Type) (ops : Sample T) (G : Type) (src : RandomSource T G)
         (w : World T) (e : RandomWhamNoise T) (wav : list T) (sr : nat)
         (st : State G) (x : exn),
    RandomWhamNoise_apply w e wav sr st = Raise x ->
    noise_paths w e = Raise x
    \/ (exists paths p,
           noise_paths w e = Ok paths /\ In p paths
           /\ librosa_load w p = Raise x)
    \/ (exists paths p clip nsr,
           noise_paths w e = Ok paths /\ In p paths
           /\ librosa_load w p = Ok (clip, nsr) /\ nsr <> sr
           /\ librosa_resample w clip nsr sr = Raise x).
Proof.
  intros T ops G src w e wav sr st x Hrun.
  destruct (noise_paths w e) as [paths|x0] eqn:Hpaths.
  2:{ rewrite RandomWhamNoise_apply_unlisted with (x := x0) in Hrun
        by exact Hpaths.
      injection Hrun as ->. left. reflexivity. }
  right.
  rewrite RandomWhamNoise_apply_listed with (paths := paths) in Hrun
    by exact Hpaths.
  destruct paths as [|p0 ps]; [discriminate|].
  cbn [length Nat.eqb] in Hrun. unfold bind at 1 in Hrun.
  rewrite _sample_noise_listed with (paths := p0 :: ps) in Hrun
    by exact Hpaths.
  cbn [length Nat.eqb] in Hrun.
  destruct (@choose_path_member T G src (wn_deterministic e) (p0 :: ps) st)
    as (p & st1 & Hpath & Hin & _); [discriminate|].
  unfold choose_path in Hpath.
  unfold bind at 1 in Hrun. rewrite Hpath in Hrun.
  unfold bind at 1 in Hrun. unfold lift at 1 in Hrun.
  destruct (librosa_load w p) as [[noise nsr]|x0] eqn:Hload.
  2:{ injection Hrun as ->. left. exists (p0 :: ps), p. now repeat split. }
  unfold ret at 1 in Hrun. unfold bind at 1 in Hrun.
  destruct (Nat.eqb_spec nsr sr) as [Hsame|Hdiff]; cbn [negb] in Hrun.
  - unfold ret at 1 in Hrun.
    destruct (wham_align_returns e wav noise st1) as (aligned & st2 & Halign).
    unfold bind at 1 in Hrun. rewrite Halign in Hrun.
    destruct (@wham_mix_returns T ops G src e wav aligned st2)
      as (out & st3 & Hmix).
    { eapply wham_align_length. exact Halign. }
    rewrite Hmix in Hrun. discriminate.
  - unfold lift at 1 in Hrun.
    destruct (librosa_resample w noise nsr sr) as [noise1|x0] eqn:Hres.
    2:{ injection Hrun as ->. right.
        exists (p0 :: ps), p, noise, nsr. now repeat split. }
    destruct (wham_align_returns e wav noise1 st1)
      as (aligned & st2 & Halign).
    unfold bind at 1 in Hrun. rewrite Halign in Hrun.
    destruct (@wham_mix_returns T ops G src e wav aligned st2)
      as (out & st3 & Hmix).
    { eapply wham_align_length. exact Halign. }
    rewrite Hmix in Hrun. discriminate.
Qed.

Lemma wham_raises_only_what_librosa_raises_witness :
  noise_paths (@unlisted_world float)
    (new_RandomWhamNoise (Some "wham"%string) false) = Raise OSError
  \/ (exists paths p,
         noise_paths (@unlisted_world float)
           (new_RandomWhamNoise (Some "wham"%string) false) = Ok paths
         /\ In p paths
         /\ librosa_load (@unlisted_world float) p = Raise OSError)
  \/ (exists paths p clip nsr,
         noise_paths (@unlisted_world float)
           (new_RandomWhamNoise (Some "wham"%string) false) = Ok paths
         /\ In p paths
         /\ librosa_load (@unlisted_world float) p = Ok (clip, nsr)
         /\ nsr <> 16000
         /\ librosa_resample (@unlisted_world float) clip nsr 16000
            = Raise OSError).
Proof.
  apply (@wham_raises_only_what_librosa_raises float float_ops (Tape float)
           tape_source unlisted_world
           (new_RandomWhamNoise (Some "wham"%string) false)
           [1; 2]%float 16000 (start_state [0] [] [])).
  vm_compute. reflexivity.
Defined.



(** ** Further properties of distorter.py *)

(** X10. In training, every mode other than ["denoiser"] builds the
    pipeline of ["enhancer"]: a mode the code does not know is not
    rejected. *)
Theorem distorter_unknown_mode_is_enhancer :
  forall (T : Type) (ops : Sample T) (hp : hparams.HParams) (mode : string),
    mode <> "denoiser"%string ->
    Distorter hp true mode = Distorter hp true "enhancer".
Proof.
  intros T ops hp mode Hmode. unfold Distorter.
  apply String.eqb_neq in Hmode. rewrite Hmode. reflexivity.
Qed.

Lemma distorter_unknown_mode_is_enhancer_witness :
  @Distorter float float_ops
    {| hparams.enable_rir := true; hparams.rir_dir := Some "rir"%string;
       hparams.enable_reverb := false;
       hparams.enable_gaussian_noise := true;
       hparams.enable_wham_noise := false;
       hparams.wham_noise_dir := None;
       hparams.enable_overdrive := false;
       hparams.enable_equalizer := false;
       hparams.enable_filters := true |}
    true "Denoiser"
  = Chain
      [Choice
         [Permutation
            [ERandomRIR (mkRandomRIR (Some "rir"%string) 44000 ".npy" false);
             ERandomGaussianNoise (mkRandomGaussianNoise (0.8, 1)%float);
             Choice [RandomLowpassDistorter; RandomBandpassDistorter] None];
          Chain []]
         (Some [0.8; 0.2]%float)].
Proof.
  rewrite (@distorter_unknown_mode_is_enhancer float float_ops _ "Denoiser").
  - reflexivity.
  - discriminate.
Defined.

(** An effect built with [deterministic=True]. *)
Definition built_deterministic {T : Type} (e : Effect T) : Prop :=
  match e with
  | ERandomRIR r => rir_deterministic r = true
  | RandomReverb deterministic => deterministic = true
  | _ => False
  end.

(** X11. Outside training the pipeline is a [Chain] of at most two
    effects, each built with [deterministic=True], and it is read from
    [enable_rir], [rir_dir] and [enable_reverb] alone: the mode and the
    other options do not change it. *)
Theorem distorter_evaluation_pipeline :
  forall (T : Type) (ops : Sample T) (hp hp' : hparams.HParams)
         (mode mode' : string),
    hparams.enable_rir hp = hparams.enable_rir hp' ->
    hparams.rir_dir hp = hparams.rir_dir hp' ->
    hparams.enable_reverb hp = hparams.enable_reverb hp' ->
    Distorter hp false mode = Distorter hp' false mode'
    /\ exists effects : list (Effect T),
         Distorter hp false mode = Chain effects
         /\ length effects <= 2
         /\ Forall built_deterministic effects.
Proof.
  intros T ops hp hp' mode mode' Hrir Hdir Hreverb.
  unfold Distorter. rewrite <- Hrir, <- Hdir, <- Hreverb.
  split; [reflexivity|]. eexists. split; [reflexivity|].
  unfold append_if.
  destruct (hparams.enable_rir hp), (hparams.enable_reverb hp); cbn;
    (split; [lia | repeat constructor]).
Qed.

Lemma distorter_evaluation_pipeline_witness :
  @Distorter float float_ops
    {| hparams.enable_rir := true; hparams.rir_dir := Some "rir"%string;
       hparams.enable_reverb := true;
       hparams.enable_gaussian_noise := true;
       hparams.enable_wham_noise := true;
       hparams.wham_noise_dir := Some "wham"%string;
       hparams.enable_overdrive := true;
       hparams.enable_equalizer := true;
       hparams.enable_filters := true |}
    false "enhancer"
  = Distorter
      {| hparams.enable_rir := true; hparams.rir_dir := Some "rir"%string;
         hparams.enable_reverb := true;
         hparams.enable_gaussian_noise := false;
         hparams.enable_wham_noise := false;
         hparams.wham_noise_dir := None;
         hparams.enable_overdrive := false;
         hparams.enable_equalizer := false;
         hparams.enable_filters := false |}
      false "denoiser".
Proof.
  apply (@distorter_evaluation_pipeline float float_ops); reflexivity.
Defined.

(** ** Properties of convtasnet.py: the shapes *)

Lemma Conv1d_forward_fits (c : Conv1d) (x : Shape) :
  1 <= kernel_size c -> 1 <= stride c ->
  channels x = in_channels c ->
  dilation c * (kernel_size c - 1) + 1 <= frames x + 2 * padding c ->
  Conv1d_forward c x
  = Some (mkShape (batch x) (out_channels c)
            ((frames x + 2 * padding c
              - (dilation c * (kernel_size c - 1) + 1)) / stride c + 1)).
Proof.
  intros Hk Hs Hc Hfit. unfold Conv1d_forward.
  destruct (Nat.eqb_spec (kernel_size c) 0) as [?|_]; [lia|].
  destruct (Nat.eqb_spec (stride c) 0) as [?|_]; [lia|].
  destruct (Nat.eqb_spec (channels x) (in_channels c)) as [_|?];
    [|contradiction].
  cbn [orb negb].
  destruct (Nat.ltb_spec (frames x + 2 * padding c)
              (dilation c * (kernel_size c - 1) + 1)) as [?|_]; [lia|].
  reflexivity.
Qed.

(** A convolution of kernel size 1 keeps the length. *)
Lemma pointwise_conv_forward (cin cout : nat) (x : Shape) :
  channels x = cin -> 1 <= frames x ->
  Conv1d_forward (mkConv1d cin cout 1 1 0 1) x
  = Some (mkShape (batch x) cout (frames x)).
Proof.
  intros Hc Hl.
  rewrite Conv1d_forward_fits;
    cbn [kernel_size stride padding dilation in_channels out_channels];
    try lia.
  rewrite Nat.div_1_r. do 2 f_equal. lia.
Qed.

Lemma broadcast_same (x : Shape) : broadcast x x = Some x.
Proof.
  unfold broadcast, broadcast_dim. rewrite !Nat.eqb_refl.
  destruct x; reflexivity.
Qed.

(** The length that the network of a [ConvBlock] returns. *)
Lemma ConvBlock_net_length (c h k d : nat) (x : Shape) :
  1 <= k -> channels x = c ->
  (k - 1) * d + 1 <= frames x + 2 * ((k - 1) * d / 2) ->
  Sequential_forward (new_ConvBlock c h k d) x
  = Some (mkShape (batch x) c
            (frames x + 2 * ((k - 1) * d / 2) - (k - 1) * d)).
Proof.
  intros Hk Hc Hfit. unfold new_ConvBlock. cbn [Sequential_forward Layer_forward].
  assert (Hl : 1 <= frames x).
  { pose proof (Nat.Div0.mul_div_le ((k - 1) * d) 2). lia. }
  rewrite pointwise_conv_forward by assumption.
  rewrite Conv1d_forward_fits; cbn [kernel_size stride padding dilation
    in_channels out_channels channels frames batch]; try lia.
  rewrite Nat.div_1_r.
  rewrite pointwise_conv_forward; cbn [channels frames batch]; try lia.
  do 2 f_equal. rewrite (Nat.mul_comm d). lia.
Qed.

Lemma even_double_half (n : nat) : Nat.even n = true -> 2 * (n / 2) = n.
Proof.
  intros Heven. apply Nat.even_spec in Heven. destruct Heven as [m ->].
  rewrite (Nat.mul_comm 2 m), Nat.div_mul by discriminate. lia.
Qed.

Lemma odd_double_half (n : nat) : Nat.odd n = true -> 2 * (n / 2) + 1 = n.
Proof.
  intros Hodd. apply Nat.odd_spec in Hodd. destruct Hodd as [m ->].
  replace (2 * m + 1) with (1 + m * 2) by lia.
  rewrite Nat.div_add by discriminate.
  replace (1 / 2) with 0 by reflexivity. lia.
Qed.

(** The padding makes up for the kernel exactly. *)
Lemma ConvBlock_even_reach (c h k d : nat) (x : Shape) :
  1 <= k ->
  Nat.even ((k - 1) * d) = true ->
  channels x = c ->
  1 <= frames x ->
  ConvBlock_forward (new_ConvBlock c h k d) x = Some x.
Proof.
  intros Hk Heven Hc Hl. unfold ConvBlock_forward.
  pose proof (even_double_half _ Heven) as Hhalf.
  rewrite ConvBlock_net_length by (try assumption; lia).
  replace (frames x + 2 * ((k - 1) * d / 2) - (k - 1) * d) with (frames x)
    by lia.
  rewrite <- Hc. destruct x; apply broadcast_same.
Qed.

(** The padding is one sample short on one side. *)
Lemma ConvBlock_odd_reach (c h k d : nat) (x : Shape) :
  1 <= k ->
  Nat.odd ((k - 1) * d) = true ->
  channels x = c ->
  3 <= frames x ->
  Sequential_forward (new_ConvBlock c h k d) x
  = Some (mkShape (batch x) c (frames x - 1))
  /\ ConvBlock_forward (new_ConvBlock c h k d) x = None.
Proof.
  intros Hk Hodd Hc Hl.
  pose proof (odd_double_half _ Hodd) as Hhalf.
  assert (Hnet : Sequential_forward (new_ConvBlock c h k d) x
                 = Some (mkShape (batch x) c (frames x - 1))).
  { rewrite ConvBlock_net_length by (try assumption; lia).
    do 2 f_equal. lia. }
  split; [exact Hnet|].
  unfold ConvBlock_forward. rewrite Hnet.
  unfold broadcast, broadcast_dim. cbn [batch channels frames].
  rewrite !Nat.eqb_refl, Hc, Nat.eqb_refl.
  destruct (Nat.eqb_spec (frames x) (frames x - 1)) as [?|_]; [lia|].
  destruct (Nat.eqb_spec (frames x) 1) as [?|_]; [lia|].
  destruct (Nat.eqb_spec (frames x - 1) 1) as [?|_]; [lia|].
  reflexivity.
Qed.

(** X12. A [ConvBlock] returns the shape it is given when
    [(kernel_size - 1) * dilation] is even: the padding
    [(kernel_size - 1) * dilation // 2] then makes up for the kernel
    exactly and the residual sum is elementwise.  When the product is odd
    the network of the block returns one sample less than it is given, and
    the residual sum is rejected for every input of three samples or
    more. *)
Theorem ConvBlock_shape_law :
  forall (c h k d : nat) (x : Shape),
    1 <= k ->
    channels x = c ->
    (Nat.even ((k - 1) * d) = true -> 1 <= frames x ->
     ConvBlock_forward (new_ConvBlock c h k d) x = Some x)
    /\ (Nat.odd ((k - 1) * d) = true -> 3 <= frames x ->
        Sequential_forward (new_ConvBlock c h k d) x
        = Some (mkShape (batch x) c (frames x - 1))
        /\ ConvBlock_forward (new_ConvBlock c h k d) x = None).
Proof.
  intros c h k d x Hk Hc. split.
  - intros Heven Hl. apply ConvBlock_even_reach; assumption.
  - intros Hodd Hl. apply ConvBlock_odd_reach; assumption.
Qed.

Lemma ConvBlock_shape_law_witness :
  ConvBlock_forward (new_ConvBlock 256 512 3 32) (mkShape 4 256 5334)
  = Some (mkShape 4 256 5334)
  /\ ConvBlock_forward (new_ConvBlock 256 512 4 1) (mkShape 4 256 4001)
     = None.
Proof.
  split.
  - apply (@ConvBlock_shape_law 256 512 3 32 (mkShape 4 256 5334));
      [lia | reflexivity | reflexivity | cbn; lia].
  - apply (@ConvBlock_shape_law 256 512 4 1 (mkShape 4 256 4001));
      [lia | reflexivity | reflexivity | cbn; lia].
Defined.

Lemma TCN_blocks_keep_shape (c h k : nat) (x : Shape) (dilations : list nat) :
  Nat.odd k = true -> channels x = c -> 1 <= frames x ->
  TCN_forward (map (fun i => new_ConvBlock c h k (2 ^ i)) dilations) x
  = Some x.
Proof.
  intros Hodd Hc Hl. induction dilations as [|i rest IH]; [reflexivity|].
  cbn [map TCN_forward].
  assert (Hk : 1 <= k) by (destruct k; [discriminate | lia]).
  rewrite ConvBlock_even_reach; try assumption.
  rewrite Nat.even_mul.
  replace (Nat.even (k - 1)) with true; [reflexivity|].
  symmetry. destruct k as [|k]; [discriminate|].
  cbn [Nat.sub]. rewrite Nat.sub_0_r.
  rewrite Nat.odd_succ in Hodd. exact Hodd.
Qed.

(** X13. With an odd [kernel_size] a [TCN] of any number of layers returns
    the shape it is given. *)
Theorem TCN_keeps_shape :
  forall (c h k num_layers : nat) (x : Shape),
    Nat.odd k = true ->
    channels x = c ->
    1 <= frames x ->
    TCN_forward (new_TCN c h k num_layers) x = Some x.
Proof.
  intros c h k num_layers x Hodd Hc Hl. unfold new_TCN.
  now apply TCN_blocks_keep_shape.
Qed.

Lemma TCN_keeps_shape_witness :
  TCN_forward (new_TCN 256 512 3 6) (mkShape 4 256 5334)
  = Some (mkShape 4 256 5334).
Proof.
  apply (@TCN_keeps_shape 256 512 3 6 (mkShape 4 256 5334)).
  - reflexivity.
  - reflexivity.
  - cbn. lia.
Defined.

(** The encoder: [t // kernel_size + 1] frames of [enc_dim] channels. *)
Lemma ConvTasNet_encoder_length (enc_dim hidden k n b t : nat) :
  1 <= k ->
  Conv1d_forward (encoder (new_ConvTasNet enc_dim hidden k n)) (mkShape b 1 t)
  = Some (mkShape b enc_dim (t / k + 1)).
Proof.
  intros Hk. unfold new_ConvTasNet. cbn [encoder].
  rewrite Nat.div_mul by discriminate.
  rewrite Conv1d_forward_fits;
    cbn [kernel_size stride padding dilation in_channels out_channels
         batch channels frames]; try lia.
  replace (t + 2 * k - (1 * (k * 2 - 1) + 1)) with t by lia.
  reflexivity.
Qed.

(** The rest of [forward], from the encoder's output on. *)
Lemma ConvTasNet_decoder_length (enc_dim hidden k n b frames_ : nat) :
  1 <= k -> 2 <= frames_ ->
  let m := new_ConvTasNet enc_dim hidden k n in
  let enc := mkShape b enc_dim frames_ in
  TCN_forward (tcn m) enc = Some enc ->
  match Conv1d_forward (mask m) enc with
  | None => None
  | Some mask_ =>
      match broadcast enc mask_ with
      | None => None
      | Some masked =>
          match ConvTranspose1d_forward (decoder m) masked with
          | None => None
          | Some out => Some (squeeze_1 out)
          end
      end
  end = Some (Dim2 b ((frames_ - 1) * k)).
Proof.
  intros Hk Hl m enc _. subst m enc. unfold new_ConvTasNet.
  cbn [mask decoder]. rewrite Nat.div_mul by discriminate.
  rewrite pointwise_conv_forward by (cbn; lia).
  cbn [batch channels frames]. rewrite broadcast_same.
  unfold ConvTranspose1d_forward.
  cbn [kernel_size stride padding dilation in_channels out_channels
       batch channels frames].
  destruct (Nat.eqb_spec (k * 2) 0) as [?|_]; [lia|].
  destruct (Nat.eqb_spec k 0) as [?|_]; [lia|].
  rewrite Nat.eqb_refl. cbn [orb negb].
  destruct (Nat.eqb_spec frames_ 0) as [?|_]; [lia|].
  destruct (Nat.leb_spec ((frames_ - 1) * k + 1 * (k * 2 - 1) + 1) (2 * k))
    as [Hsmall|_]; [nia|].
  unfold squeeze_1. cbn [channels batch frames Nat.eqb].
  replace ((frames_ - 1) * k + 1 * (k * 2 - 1) + 1 - 2 * k)
    with ((frames_ - 1) * k) by nia.
  reflexivity.
Qed.

(** X14. With an odd [kernel_size], [ConvTasNet.forward] maps an input of
    shape [(b, t)] with [t >= kernel_size] to an output of shape
    [(b, t // kernel_size * kernel_size)]: the output has the input's
    length rounded down to a multiple of the kernel size, that is, it is
    shorter by [t % kernel_size] samples, and as long as the input exactly
    when the kernel size divides [t]. *)
Theorem ConvTasNet_forward_length :
  forall (enc_dim hidden k n b t : nat),
    Nat.odd k = true ->
    k <= t ->
    ConvTasNet_forward (new_ConvTasNet enc_dim hidden k n) b t
    = Some (Dim2 b (t / k * k))
    /\ t / k * k + t mod k = t
    /\ (t / k * k = t <-> t mod k = 0).
Proof.
  intros enc_dim hidden k n b t Hodd Hkt.
  assert (Hk : 1 <= k) by (destruct k; [discriminate | lia]).
  pose proof (Nat.div_mod_eq t k) as Hdm.
  split; [|split; lia].
  unfold ConvTasNet_forward.
  rewrite ConvTasNet_encoder_length by exact Hk.
  assert (Htcn : TCN_forward (tcn (new_ConvTasNet enc_dim hidden k n))
                   (mkShape b enc_dim (t / k + 1))
                 = Some (mkShape b enc_dim (t / k + 1))).
  { unfold new_ConvTasNet, new_TCN. cbn [tcn].
    apply TCN_blocks_keep_shape; [exact Hodd | reflexivity | cbn; lia]. }
  rewrite Htcn.
  assert (Hframes : 2 <= t / k + 1).
  { assert (1 <= t / k) by (apply Nat.div_le_lower_bound; lia). lia. }
  rewrite (@ConvTasNet_decoder_length enc_dim hidden k n b (t / k + 1)
             Hk Hframes Htcn).
  do 2 f_equal. lia.
Qed.

Lemma ConvTasNet_forward_length_witness :
  ConvTasNet_forward (new_ConvTasNet 256 512 3 6) 2 16000
  = Some (Dim2 2 (16000 / 3 * 3))
  /\ 16000 / 3 * 3 + 16000 mod 3 = 16000.
Proof.
  destruct (@ConvTasNet_forward_length 256 512 3 6 2 16000)
    as (Hrun & Hloss & _).
  - reflexivity.
  - apply Nat.leb_le. vm_compute. reflexivity.
  - split; [exact Hrun | exact Hloss].
Defined.

(** The default network returns 15999 samples for 16000. *)
Example ConvTasNet_default_drops_a_sample :
  ConvTasNet_forward (new_ConvTasNet 256 512 3 6) 2 16000
  = Some (Dim2 2 15999).
Proof. vm_compute. reflexivity. Qed.

(** X15. With an even [kernel_size] and at least one layer,
    [ConvTasNet.forward] is rejected for every input of
    [2 * kernel_size] samples or more: the first block of the [TCN] has the
    dilation 1, its network returns one frame less than the encoder, and
    the residual sum fails. *)
Theorem ConvTasNet_rejects_even_kernel :
  forall (enc_dim hidden k n b t : nat),
    Nat.even k = true ->
    1 <= k ->
    1 <= n ->
    2 * k <= t ->
    ConvTasNet_forward (new_ConvTasNet enc_dim hidden k n) b t = None.
Proof.
  intros enc_dim hidden k n b t Heven Hk Hn Ht.
  unfold ConvTasNet_forward.
  rewrite ConvTasNet_encoder_length by exact Hk.
  assert (Hframes : 3 <= t / k + 1).
  { assert (2 <= t / k) by (apply Nat.div_le_lower_bound; lia). lia. }
  unfold new_ConvTasNet, new_TCN. cbn [tcn].
  destruct n as [|n]; [lia|]. cbn [seq map TCN_forward].
  destruct (@ConvBlock_odd_reach enc_dim hidden k (2 ^ 0)
              (mkShape b enc_dim (t / k + 1))) as [_ Hreject];
    try (reflexivity || assumption).
  - cbn [Nat.pow]. rewrite Nat.mul_1_r.
    destruct k as [|k]; [lia|]. cbn [Nat.sub]. rewrite Nat.sub_0_r.
    rewrite Nat.even_succ in Heven. exact Heven.
  - rewrite Hreject. reflexivity.
Qed.

Lemma ConvTasNet_rejects_even_kernel_witness :
  ConvTasNet_forward (new_ConvTasNet 256 512 4 6) 2 16000 = None.
Proof.
  apply (@ConvTasNet_rejects_even_kernel 256 512 4 6 2 16000).
  - reflexivity.
  - lia.
  - lia.
  - apply Nat.leb_le. vm_compute. reflexivity.
Defined.

(** ** Properties of ddp_engine.py *)

Section EngineFacts.
Context {T : Type} `{Sample T} {Opt Sched MD OD SD : Type}.
Variable torch : Torch T Opt Sched MD OD SD.

Lemma write_file_same (fs : Files MD OD SD) (path : Path)
    (ck : Checkpoint MD OD SD) :
  write_file fs path ck path = Some ck.
Proof. unfold write_file. now rewrite String.eqb_refl. Qed.

Lemma write_file_other (fs : Files MD OD SD) (path other : Path)
    (ck : Checkpoint MD OD SD) :
  other <> path -> write_file fs path ck other = fs other.
Proof.
  intros Hne. unfold write_file. apply String.eqb_neq in Hne.
  now rewrite Hne.
Qed.

(** One step: the counter, the directory and the clipping threshold. *)
Lemma Engine_step_counter (self : Engine T Opt Sched) :
  match Engine_step torch self with
  | Done self' => _global_step self' = (_global_step self + 1)%Z
                  /\ _ckpt_dir self' = _ckpt_dir self
                  /\ _gradient_clipping self' = _gradient_clipping self
  | Failed _ self' => _global_step self' = _global_step self
                      /\ _ckpt_dir self' = _ckpt_dir self
                      /\ _gradient_clipping self' = _gradient_clipping self
  end.
Proof.
  unfold Engine_step.
  destruct (clip_grad_norm_ torch (parameters self) (_gradient_clipping self))
    as [ps|x ps]; [|now repeat split].
  destruct (optimizer_step torch (optimizer self) ps)
    as [[o ps1]|x [o ps1]]; [|now repeat split].
  destruct (scheduler_step torch (scheduler self) o)
    as [[s o1]|x [s o1]]; now repeat split.
Qed.
End EngineFacts.

(** X16. [_global_step] counts the completed steps: [n] calls of
    [Engine.step] that all return add exactly [n] to it; when one of them
    raises, the counter has advanced by the number of calls that returned
    before, fewer than [n].  The checkpoint directory and the clipping
    threshold never change. *)
Theorem global_step_counts_completed_steps :
  forall (T Opt Sched MD OD SD : Type) (torch : Torch T Opt Sched MD OD SD)
         (n : nat) (self : Engine T Opt Sched),
    match Engine_steps torch n self with
    | Done self' =>
        _global_step self' = (_global_step self + Z.of_nat n)%Z
        /\ _ckpt_dir self' = _ckpt_dir self
        /\ _gradient_clipping self' = _gradient_clipping self
    | Failed _ self' =>
        (_global_step self <= _global_step self'
         < _global_step self + Z.of_nat n)%Z
        /\ _ckpt_dir self' = _ckpt_dir self
        /\ _gradient_clipping self' = _gradient_clipping self
    end.
Proof.
  intros T Opt Sched MD OD SD torch n.
  induction n as [|n IH]; intros self.
  - cbn. repeat split. lia.
  - cbn [Engine_steps].
    pose proof (Engine_step_counter torch self) as Hstep.
    destruct (Engine_step torch self) as [self1|x self1].
    + destruct Hstep as (Hcount & Hdir & Hclip).
      specialize (IH self1).
      destruct (Engine_steps torch n self1) as [self2|x self2].
      * destruct IH as (IHcount & IHdir & IHclip).
        repeat split; [lia | congruence | congruence].
      * destruct IH as (IHcount & IHdir & IHclip).
        repeat split; [lia | lia | congruence | congruence].
    + destruct Hstep as (Hcount & Hdir & Hclip).
      repeat split; [lia | lia | congruence | congruence].
Qed.

(** Five steps under a scheduler that allows three. *)
Example global_step_stops_with_the_scheduler :
  Engine_steps (@toy_torch float) 5
    (mkEngine [mkParam [1%float] (Some [0.5%float]) true] 0 (0, 3)
       "ckpt"%string 0%Z 1%float)
  = Failed (TorchError "ValueError")
      (mkEngine [mkParam [1%float] None true] 4 (3, 3) "ckpt"%string 3%Z 1%float).
Proof. vm_compute. reflexivity. Qed.

(** X17. A checkpoint written by [save_checkpoint] is read back by
    [load_checkpoint] under the same tag, by an engine with the same
    checkpoint directory: the three [load_state_dict] calls receive exactly
    the state dicts that were saved, and when they return, the engine holds
    what they return and the global step of the engine that saved. *)
Theorem checkpoint_round_trip :
  forall (T Opt Sched MD OD SD : Type) (torch : Torch T Opt Sched MD OD SD)
         (saved current : Engine T Opt Sched) (tag : string)
         (fs : Files MD OD SD)
         (ps : list (Param T)) (o : Opt) (s : Sched),
    _ckpt_dir current = _ckpt_dir saved ->
    ddp_load_state_dict torch (parameters current)
      (ddp_state_dict torch (parameters saved)) = Done ps ->
    optimizer_load_state_dict torch (optimizer current)
      (optimizer_state_dict torch (optimizer saved)) = Done o ->
    scheduler_load_state_dict torch (scheduler current)
      (scheduler_state_dict torch (scheduler saved)) = Done s ->
    Engine_load_checkpoint torch current tag true true
      (fst (Engine_save_checkpoint torch saved tag fs))
    = Done (mkEngine ps o s (_ckpt_dir current) (_global_step saved)
              (_gradient_clipping current)).
Proof.
  intros T Opt Sched MD OD SD torch saved current tag fs ps o s
    Hdir Hmodel Hopt Hsched.
  unfold Engine_load_checkpoint, Engine_save_checkpoint, checkpoint_path.
  cbn [fst]. rewrite Hdir, write_file_same.
  cbn [ck_model ck_optimizer ck_scheduler ck_step].
  rewrite Hmodel, Hopt, Hsched. reflexivity.
Qed.

Lemma checkpoint_round_trip_witness :
  Engine_load_checkpoint (@toy_torch float)
    (mkEngine [mkParam [9%float] (Some [0.5%float]) false] 7 (7, 10)
       "ckpt"%string 7%Z 1%float)
    "best" true true
    (fst (Engine_save_checkpoint (@toy_torch float)
            (mkEngine [mkParam [1%float] None true] 2 (2, 10)
               "ckpt"%string 2%Z 1%float)
            "best" no_files))
  = Done (mkEngine [mkParam [1%float] (Some [0.5%float]) false] 2 (2, 10)
            "ckpt"%string 2%Z 1%float).
Proof.
  apply (@checkpoint_round_trip float nat (nat * nat) (list (list float))
           nat (nat * nat) toy_torch
           (mkEngine [mkParam [1%float] None true] 2 (2, 10)
              "ckpt"%string 2%Z 1%float)
           (mkEngine [mkParam [9%float] (Some [0.5%float]) false] 7 (7, 10)
              "ckpt"%string 7%Z 1%float)
           "best"%string no_files
           [mkParam [1%float] (Some [0.5%float]) false] 2 (2, 10));
    reflexivity.
Defined.

(** X18. [load_checkpoint] under a tag whose file does not exist returns
    without an exception and leaves the engine as it is, whatever the two
    flags; saving under a tag with another path does not create it. *)
Theorem load_missing_checkpoint_is_a_noop :
  forall (T Opt Sched MD OD SD : Type) (torch : Torch T Opt Sched MD OD SD)
         (self other : Engine T Opt Sched) (tag saved_tag : string)
         (load_optimizer_states load_lr_scheduler_states : bool)
         (fs : Files MD OD SD),
    fs (checkpoint_path torch self tag) = None ->
    Engine_load_checkpoint torch self tag load_optimizer_states
      load_lr_scheduler_states fs = Done self
    /\ (checkpoint_path torch self tag
        <> checkpoint_path torch other saved_tag ->
        Engine_load_checkpoint torch self tag load_optimizer_states
          load_lr_scheduler_states
          (fst (Engine_save_checkpoint torch other saved_tag fs))
        = Done self).
Proof.
  intros T Opt Sched MD OD SD torch self other tag saved_tag lo ls fs Hnone.
  unfold Engine_load_checkpoint. split.
  - now rewrite Hnone.
  - intros Hother. unfold Engine_save_checkpoint. cbn [fst].
    rewrite write_file_other by exact Hother. now rewrite Hnone.
Qed.

Lemma load_missing_checkpoint_is_a_noop_witness :
  Engine_load_checkpoint (@toy_torch float)
    (mkEngine [mkParam [9%float] None true] 7 (7, 10)
       "ckpt"%string 7%Z 1%float)
    "last" true true
    (fst (Engine_save_checkpoint (@toy_torch float)
            (mkEngine [mkParam [1%float] None true] 2 (2, 10)
               "ckpt"%string 2%Z 1%float)
            "best" no_files))
  = Done (mkEngine [mkParam [9%float] None true] 7 (7, 10)
            "ckpt"%string 7%Z 1%float).
Proof.
  apply (@load_missing_checkpoint_is_a_noop float nat (nat * nat)
           (list (list float)) nat (nat * nat) toy_torch
           (mkEngine [mkParam [9%float] None true] 7 (7, 10)
              "ckpt"%string 7%Z 1%float)
           (mkEngine [mkParam [1%float] None true] 2 (2, 10)
              "ckpt"%string 2%Z 1%float)
           "last"%string "best"%string true true no_files).
  - reflexivity.
  - discriminate.
Defined.

(** X19. [load_checkpoint] is not atomic, and its flags gate the key
    lookups: for a file whose dict has a model that loads but no
    ["optimizer"] entry, the call with [load_optimizer_states=True] raises
    [KeyError] after it has replaced the parameters and set the global
    step (0 when the dict has no ["step"] entry), the optimizer and the
    scheduler being left alone; the call with both flags off returns, with
    the same parameters and step and its own optimizer and scheduler. *)
Theorem load_checkpoint_without_optimizer_entry :
  forall (T Opt Sched MD OD SD : Type) (torch : Torch T Opt Sched MD OD SD)
         (self : Engine T Opt Sched) (tag : string) (fs : Files MD OD SD)
         (md : MD) (sd : option SD) (step : option Z) (ps : list (Param T))
         (load_lr_scheduler_states : bool),
    fs (checkpoint_path torch self tag)
    = Some (mkCheckpoint (Some md) None sd step) ->
    ddp_load_state_dict torch (parameters self) md = Done ps ->
    let restored :=
      mkEngine ps (optimizer self) (scheduler self) (_ckpt_dir self)
        (match step with Some n => n | None => 0%Z end)
        (_gradient_clipping self) in
    Engine_load_checkpoint torch self tag true load_lr_scheduler_states fs
    = Failed (KeyError "optimizer") restored
    /\ Engine_load_checkpoint torch self tag false false fs = Done restored.
Proof.
  intros T Opt Sched MD OD SD torch self tag fs md sd step ps ls
    Hfile Hmodel restored.
  unfold Engine_load_checkpoint. rewrite Hfile.
  cbn [ck_model ck_optimizer ck_scheduler ck_step]. rewrite Hmodel.
  split; reflexivity.
Qed.

Lemma load_checkpoint_without_optimizer_entry_witness :
  Engine_load_checkpoint (@toy_torch float)
    (mkEngine [mkParam [9%float] None true] 7 (7, 10)
       "ckpt"%string 7%Z 1%float)
    "old"%string true true
    (write_file no_files "ckpt/old.pt"%string
       (mkCheckpoint (Some [[1%float]]) None None None))
  = Failed (KeyError "optimizer")
      (mkEngine [mkParam [1%float] None true] 7 (7, 10)
         "ckpt"%string 0%Z 1%float).
Proof.
  apply (@load_checkpoint_without_optimizer_entry float nat (nat * nat)
           (list (list float)) nat (nat * nat) toy_torch
           (mkEngine [mkParam [9%float] None true] 7 (7, 10)
              "ckpt"%string 7%Z 1%float)
           "old"%string
           (write_file no_files "ckpt/old.pt"%string
              (mkCheckpoint (Some [[1%float]]) None None None))
           [[1%float]] None None [mkParam [1%float] None true] true).
  - reflexivity.
  - reflexivity.
Defined.

(** The gradients that exist, one after the other. *)
Definition present_grads {T : Type} (ps : list (Param T)) : list T :=
  flat_map (fun p => match grad p with Some g => g | None => [] end) ps.

Section RealGradNorm.
Local Open Scope R_scope.

Lemma real_energy_app (a b : list R) :
  np_sum (np_square (a ++ b)) = np_sum (np_square a) + np_sum (np_square b).
Proof.
  induction a as [|x a IH]; cbn [app].
  - rewrite real_energy_nil. lra.
  - rewrite !real_energy_cons, IH. lra.
Qed.

Lemma real_tensor_norm_squared (g : list R) :
  tensor_norm g * tensor_norm g = np_sum (np_square g).
Proof. unfold tensor_norm. cbn. apply sqrt_sqrt, real_energy_nonneg. Qed.

Lemma real_grad_total (ps : list (Param R)) (total : R) :
  fold_left
    (fun total p =>
       match grad p with
       | Some g => s_add total (s_mul (tensor_norm g) (tensor_norm g))
       | None => total
       end) ps total
  = total + np_sum (np_square (present_grads ps)).
Proof.
  revert total. induction ps as [|p ps IH]; intros total.
  - cbn [fold_left present_grads flat_map]. rewrite real_energy_nil. lra.
  - cbn [fold_left present_grads flat_map]. rewrite IH.
    fold (present_grads ps). rewrite real_energy_app.
    destruct (grad p) as [g|].
    + cbn [s_add s_mul real_ops]. rewrite real_tensor_norm_squared. lra.
    + rewrite real_energy_nil. lra.
Qed.
End RealGradNorm.

(** X20. [get_grad_norm] is the Euclidean norm of all the gradients taken
    together: the square root of the sum of the squares of every entry of
    every gradient that is not [None]; it is never negative, and it is 0
    exactly when every such entry is 0 (in particular when no parameter
    has a gradient).  Samples are exact reals. *)
Theorem get_grad_norm_is_global_norm :
  forall (Opt Sched : Type) (self : Engine R Opt Sched),
    let entries := present_grads (parameters self) in
    Engine_get_grad_norm self = sqrt (np_sum (np_square entries))
    /\ (0 <= Engine_get_grad_norm self)%R
    /\ (Engine_get_grad_norm self = 0%R <-> Forall (fun x => x = 0%R) entries).
Proof.
  intros Opt Sched self entries.
  assert (Hnorm : Engine_get_grad_norm self
                  = sqrt (np_sum (np_square entries))).
  { unfold Engine_get_grad_norm. rewrite real_grad_total.
    cbn [s_sqrt s_zero real_ops]. f_equal. fold entries. lra. }
  pose proof (real_energy_nonneg entries) as Hnn.
  split; [exact Hnorm|]. rewrite Hnorm. split; [apply sqrt_pos|].
  rewrite <- real_energy_zero_iff. split.
  - intros Hzero. now apply sqrt_eq_0.
  - intros ->. apply sqrt_0.
Qed.

(** Two gradients, [(3, 0)] and [(4)], and a parameter without one. *)
Example get_grad_norm_binary64 :
  Engine_get_grad_norm
    (mkEngine [mkParam [1; 1]%float (Some [3; 0]%float) true;
               mkParam [1%float] None true;
               mkParam [1%float] (Some [4%float]) false]
       0 0 "ckpt"%string 0%Z 1%float)
  = 5%float.
Proof. vm_compute. reflexivity. Qed.

(** X21. [freeze_] leaves every parameter with [requires_grad] off and
    touches neither values nor gradients; [unfreeze_] after [freeze_]
    leaves every parameter with [requires_grad] on, so the two calls do
    not give back an engine in which some parameter was already frozen. *)
Theorem freeze_then_unfreeze_enables_all :
  forall (T Opt Sched : Type) (self : Engine T Opt Sched),
    Forall (fun p => requires_grad p = false)
      (parameters (Engine_freeze_ self))
    /\ map (@data T) (parameters (Engine_freeze_ self))
       = map (@data T) (parameters self)
    /\ map (@grad T) (parameters (Engine_freeze_ self))
       = map (@grad T) (parameters self)
    /\ Forall (fun p => requires_grad p = true)
         (parameters (Engine_unfreeze_ (Engine_freeze_ self)))
    /\ (Exists (fun p => requires_grad p = false) (parameters self) ->
        Engine_unfreeze_ (Engine_freeze_ self) <> self).
Proof.
  intros T Opt Sched self.
  assert (Hfrozen : Forall (fun p => requires_grad p = false)
                      (parameters (Engine_freeze_ self))).
  { cbn [Engine_freeze_ parameters]. apply Forall_map, Forall_forall.
    intros p _. destruct (requires_grad p) eqn:Hp; [reflexivity | exact Hp]. }
  assert (Henabled : Forall (fun p => requires_grad p = true)
                       (parameters (Engine_unfreeze_ (Engine_freeze_ self)))).
  { cbn [Engine_unfreeze_ parameters]. apply Forall_map, Forall_forall.
    intros p _. destruct (requires_grad p) eqn:Hp; [exact Hp | reflexivity]. }
  split; [exact Hfrozen|]. split; [|split; [|split; [exact Henabled|]]].
  - cbn [Engine_freeze_ parameters]. rewrite map_map. apply map_ext.
    intros p. now destruct (requires_grad p).
  - cbn [Engine_freeze_ parameters]. rewrite map_map. apply map_ext.
    intros p. now destruct (requires_grad p).
  - intros Hsome Heq. rewrite Heq in Henabled.
    apply Exists_exists in Hsome. destruct Hsome as (p & Hin & Hp).
    rewrite Forall_forall in Henabled. specialize (Henabled p Hin).
    congruence.
Qed.

(** ** Deterministic mode, further *)

(** X22. With [deterministic=True], two calls of [RandomRIR.apply] on the
    same waveform and rate, from any two random states, end alike: both
    return the same waveform and log the same warning, or both raise the
    same exception; and each leaves its random state as it found it. *)
Theorem rir_deterministic_ignores_random_state :
  forall (T : Type) (ops : Sample T) (G : Type) (src : RandomSource T G)
         (w : World T) (e : RandomRIR) (wav : list T) (sr : nat)
         (st1 st2 : State G),
    rir_deterministic e = true ->
    match RandomRIR_apply w e wav sr st1, RandomRIR_apply w e wav sr st2 with
    | Ok (out1, st1'), Ok (out2, st2') =>
        out1 = out2
        /\ rng st1' = rng st1 /\ rng st2' = rng st2
        /\ exists ws, log st1' = log st1 ++ ws /\ log st2' = log st2 ++ ws
    | Raise x1, Raise x2 => x1 = x2
    | _, _ => False
    end.
Proof.
  intros T ops G src w e wav sr st1 st2 Hdet.
  destruct (RandomRIR_apply_deterministic w e wav sr Hdet) as [r Hr].
  rewrite (Hr st1), (Hr st2). destruct r as [[out ws]|x]; [|reflexivity].
  repeat split. exists ws. now split.
Qed.

Lemma rir_deterministic_ignores_random_state_witness :
  match RandomRIR_apply (demo_world [0.5; 1; 0.25]%float [] 8000)
          (new_RandomRIR (Some "rir"%string) true) [1; -1; 0.5]%float 16000
          (start_state [3] [0.25%float] []),
        RandomRIR_apply (demo_world [0.5; 1; 0.25]%float [] 8000)
          (new_RandomRIR (Some "rir"%string) true) [1; -1; 0.5]%float 16000
          (start_state [8; 1] [] [0.5%float])
  with
  | Ok (out1, _), Ok (out2, _) => out1 = out2
  | Raise x1, Raise x2 => x1 = x2
  | _, _ => False
  end.
Proof.
  pose proof (@rir_deterministic_ignores_random_state float float_ops
                (Tape float) tape_source
                (demo_world [0.5; 1; 0.25]%float [] 8000)
                (new_RandomRIR (Some "rir"%string) true)
                [1; -1; 0.5]%float 16000
                (start_state [3] [0.25%float] [])
                (start_state [8; 1] [] [0.5%float]) eq_refl) as Hsame.
  destruct (RandomRIR_apply _ _ _ _ (start_state [3] [0.25%float] []))
    as [[out1 st1']|x1];
    destruct (RandomRIR_apply _ _ _ _ (start_state [8; 1] [] [0.5%float]))
      as [[out2 st2']|x2];
    try exact Hsame.
  now destruct Hsame.
Defined.

(** X23. With [deterministic=True], [RandomWhamNoise.apply] reads the
    random state for [alpha] only: it raises one exception whatever the
    state, or returns the input untouched, or is the energy-matched mix of
    the input with one aligned noise, the same for every state. *)
Theorem wham_deterministic_draws_alpha_only :
  forall (T : Type) (ops : Sample T) (G : Type) (src : RandomSource T G)
         (w : World T) (e : RandomWhamNoise T) (wav : list T) (sr : nat),
    wn_deterministic e = true ->
    (exists x, forall st : State G,
        RandomWhamNoise_apply w e wav sr st = Raise x)
    \/ (forall st : State G,
           RandomWhamNoise_apply w e wav sr st = Ok (wav, st))
    \/ (exists noise,
           length noise = length wav
           /\ forall st : State G,
                RandomWhamNoise_apply w e wav sr st
                = wham_mix e wav noise st).
Proof.
  intros T ops G src w e wav sr Hdet.
  destruct (noise_paths w e) as [[|p ps]|x] eqn:Hpaths.
  { right. left. intros st.
    rewrite RandomWhamNoise_apply_listed with (paths := []) by exact Hpaths.
    reflexivity. }
  2:{ left. exists x. intros st. now apply RandomWhamNoise_apply_unlisted. }
  assert (Hrun : forall st : State G,
             RandomWhamNoise_apply w e wav sr st
             = match librosa_load w p with
               | Raise x => Raise x
               | Ok (noise, nsr) =>
                   match (if negb (nsr =? sr)
                          then librosa_resample w noise nsr sr
                          else Ok noise) with
                   | Raise x => Raise x
                   | Ok noise1 =>
                       match wham_align e wav noise1 st with
                       | Ok (aligned, st') => wham_mix e wav aligned st'
                       | Raise x => Raise x
                       end
                   end
               end).
  { intros st.
    rewrite RandomWhamNoise_apply_listed with (paths := p :: ps)
      by exact Hpaths.
    cbn [length Nat.eqb]. unfold bind at 1.
    rewrite _sample_noise_listed with (paths := p :: ps) by exact Hpaths.
    cbn [length Nat.eqb nth_error]. rewrite Hdet.
    unfold bind, ret, lift.
    destruct (librosa_load w p) as [[noise nsr]|x]; [|reflexivity].
    destruct (negb (nsr =? sr)); [|reflexivity].
    destruct (librosa_resample w noise nsr sr); reflexivity. }
  assert (Haligned : forall noise1,
             (exists x, forall st : State G,
                 wham_align e wav noise1 st = Raise x)
             \/ exists aligned,
                  length aligned = length wav
                  /\ forall st : State G,
                       wham_align e wav noise1 st = Ok (aligned, st)).
  { intros noise1. unfold wham_align. rewrite Hdet.
    destruct (Nat.ltb_spec (length noise1) (length wav)) as [Hlt|Hge].
    - unfold bind, ret, lift.
      destruct (np_set_slice (np_zeros (length wav)) 0 (0 + length noise1)
                  noise1) as [aligned|x] eqn:Hslice.
      + right. exists aligned. split; [|reflexivity].
        apply np_set_slice_length in Hslice.
        now rewrite Hslice, np_zeros_length.
      + left. exists x. reflexivity.
    - destruct (Nat.ltb_spec (length wav) (length noise1)) as [Hgt|Hle].
      + right. exists (np_slice noise1 0 (0 + length wav)).
        split; [rewrite np_slice_length; lia | reflexivity].
      + right. exists noise1. split; [lia | reflexivity]. }
  destruct (librosa_load w p) as [[noise nsr]|x].
  2:{ left. exists x. exact Hrun. }
  destruct (if negb (nsr =? sr) then librosa_resample w noise nsr sr
            else Ok noise) as [noise1|x].
  2:{ left. exists x. exact Hrun. }
  destruct (Haligned noise1) as [[x Hraise]|(aligned & Hlen & Halign)].
  - left. exists x. intros st. now rewrite Hrun, Hraise.
  - right. right. exists aligned. split; [exact Hlen|].
    intros st. now rewrite Hrun, Halign.
Qed.

Lemma wham_deterministic_draws_alpha_only_witness :
  (exists x, forall st : State (Tape float),
      RandomWhamNoise_apply (unit_world [-1]%float 16000)
        (new_RandomWhamNoise (Some "wham"%string) true) [1]%float 16000 st
      = Raise x)
  \/ (forall st : State (Tape float),
         RandomWhamNoise_apply (unit_world [-1]%float 16000)
           (new_RandomWhamNoise (Some "wham"%string) true) [1]%float 16000 st
         = Ok ([1]%float, st))
  \/ (exists noise,
         length noise = length [1]%float
         /\ forall st : State (Tape float),
              RandomWhamNoise_apply (unit_world [-1]%float 16000)
                (new_RandomWhamNoise (Some "wham"%string) true)
                [1]%float 16000 st
              = wham_mix (new_RandomWhamNoise (Some "wham"%string) true)
                  [1]%float noise st).
Proof.
  apply (@wham_deterministic_draws_alpha_only float float_ops (Tape float)
           tape_source (unit_world [-1]%float 16000)
           (new_RandomWhamNoise (Some "wham"%string) true) [1]%float 16000).
  reflexivity.
Defined.
